(** * Soda-sort guessing game: the game engine of the [App] component

    The program is a React component.  Its state hooks become the fields of a
    record [State]; every event handler becomes a function [State -> State]
    that performs the handler's [set...] calls.  JavaScript arrays are lists,
    with the behaviour of reads, writes, spreads and iteration written out
    (holes, [undefined], growth on an out-of-range write).  Numbers are the
    natural numbers the program uses them for: sizes, counts, array positions
    and clock readings in milliseconds.  [playSound] is an emitted feedback
    event, kept as a log; [localStorage] writes are taken to succeed and
    their contents are not tracked.

    The engine's [Array.prototype.sort] is not code of this program.  It is a
    parameter of the development, with what the engines guarantee of it;
    [InsertionSort] is one function that meets these guarantees. *)

From Stdlib Require Import ZArith Lia Ascii String DecimalString DecimalNat.
From stdpp Require Import base decidable option list sorting gmap.

Local Open Scope string_scope.
Local Open Scope list_scope.
Local Open Scope stdpp_scope.

(** ** types.ts *)

Inductive BrandId :=
  cola | lime | orange | grape | water | energy | peach | coffee | mint | berry.

#[global] Instance BrandId_eq_dec : EqDecision BrandId.
Proof. solve_decision. Defined.

Record SodaBrand := mkBrand {
  brand_id : BrandId;
  brand_name : string;
  brand_color : string;
  brand_accent : string;
  brand_textColor : string;
  brand_icon : string
}.

(** A cell of a JavaScript array declared [(BrandId | null)[]].  The declared
    type only has the first two shapes; [Undefined] and [Hole] are what an
    out-of-range read or write leaves behind at run time. *)
Inductive Slot :=
  | Brand (b : BrandId)
  | Null
  | Undefined
  | Hole.

#[global] Instance Slot_eq_dec : EqDecision Slot.
Proof. solve_decision. Defined.

Record HistoryEntry := mkEntry {
  entry_id : string;
  entry_arrangement : list Slot;
  entry_correctCount : nat;
  entry_timestamp : nat
}.

Record GameRecord := mkRecord {
  record_id : string;
  record_timestamp : nat;
  record_attempts : nat;
  record_durationSeconds : nat;
  record_difficulty : nat;
  record_targetSequence : option (list BrandId)
}.

Inductive GameStatus := playing | won | lost.

#[global] Instance GameStatus_eq_dec : EqDecision GameStatus.
Proof. solve_decision. Defined.

(** ['inventory' | 'slot'], used for the source and for the target of a move. *)
Inductive Zone := inventory | slot.

#[global] Instance Zone_eq_dec : EqDecision Zone.
Proof. solve_decision. Defined.

(** The argument of [playSound]. *)
Inductive Sound :=
  snd_pickup | snd_drop | snd_confirm | snd_win | snd_click | snd_remove.

(** ** constants.ts *)

Definition BRANDS : list SodaBrand :=
  [ mkBrand cola "经典可乐" "#e11d48" "#f43f5e" "#ffffff" "可乐";
    mkBrand lime "激爽青柠" "#16a34a" "#22c55e" "#ffffff" "青柠";
    mkBrand orange "阳光甜橙" "#ea580c" "#f97316" "#ffffff" "甜橙";
    mkBrand grape "皇家葡萄" "#7e22ce" "#9333ea" "#ffffff" "葡萄";
    mkBrand water "纯净矿泉" "#0284c7" "#0ea5e9" "#ffffff" "矿泉";
    mkBrand energy "闪电能量" "#eab308" "#facc15" "#000000" "能量";
    mkBrand peach "白桃乌龙" "#f472b6" "#ec4899" "#ffffff" "白桃";
    mkBrand coffee "醇香拿铁" "#78350f" "#92400e" "#ffffff" "拿铁";
    mkBrand mint "冰极薄荷" "#0d9488" "#14b8a6" "#ffffff" "薄荷";
    mkBrand berry "蓝莓气泡" "#4338ca" "#6366f1" "#ffffff" "蓝莓" ].

Definition DEFAULT_GAME_SIZE : nat := 5.

(** ** JavaScript arrays *)

Module JsArray.

(** [a[i]]: a hole and a position past the end both read as [undefined]. *)
Definition get (a : list Slot) (i : nat) : Slot :=
  match a !! i with
  | Some Hole | None => Undefined
  | Some c => c
  end.

(** [a[i] = v]: inside the array the cell is replaced; past the end the
    array grows, the cells in between being holes. *)
Definition set (a : list Slot) (i : nat) (v : Slot) : list Slot :=
  if decide (i < length a) then <[i := v]> a
  else a ++ replicate (i - length a) Hole ++ [v].

(** [[...a]]: the iterator yields [undefined] for a hole. *)
Definition spread (a : list Slot) : list Slot :=
  (fun c => match c with Hole => Undefined | _ => c end) <$> a.

(** [a.includes(id)] for a brand id. *)
Definition includes (a : list Slot) (id : BrandId) : bool :=
  bool_decide (Brand id ∈ a).

(** [a.some(p)]: holes are not visited. *)
Definition some (p : Slot -> bool) (a : list Slot) : bool :=
  existsb (fun c => match c with Hole => false | _ => p c end) a.

(** [a.forEach((x, index) => ...)] as a fold over the visited cells,
    starting at position [index]; holes are not visited. *)
Fixpoint forEach_from {S : Type} (f : Slot -> nat -> S -> S)
    (a : list Slot) (index : nat) (acc : S) : S :=
  match a with
  | [] => acc
  | c :: a' =>
      forEach_from f a' (Datatypes.S index)
        (match c with Hole => acc | _ => f c index acc end)
  end.

Definition forEach {S : Type} (f : Slot -> nat -> S -> S)
    (a : list Slot) (acc : S) : S :=
  forEach_from f a 0 acc.

(** [a.indexOf(null)]: the first position holding [null], [-1] as [None]. *)
Fixpoint indexOf_null_from (a : list Slot) (index : nat) : option nat :=
  match a with
  | [] => None
  | Null :: _ => Some index
  | _ :: a' => indexOf_null_from a' (Datatypes.S index)
  end.

Definition indexOf_null (a : list Slot) : option nat := indexOf_null_from a 0.

(** [x === t] for a visited cell [x] and [t = targetSequence[index]], where
    [None] is the [undefined] of a position past the end of the target. *)
Definition strict_eq (x : Slot) (t : option BrandId) : bool :=
  match x, t with
  | Brand b, Some b' => bool_decide (b = b')
  | Undefined, None => true
  | _, _ => false
  end.

(** [Date.now().toString()] and the like. *)
Definition toString (n : nat) : string :=
  NilZero.string_of_uint (Nat.to_uint n).

End JsArray.

(** ** The component's state *)

(** [touchDragItem]: what a touch gesture picked up. *)
Record TouchDragItem := mkTouchDragItem {
  drag_source : Zone;
  drag_brandId : BrandId;
  drag_index : option nat
}.

(** The [dataTransfer] of a drag event.  The ['index'] entry holds
    [index.toString()] when [handleDragStart] got a number; a drop handler
    reads it back with [raw ? parseInt(raw, 10) : undefined], which gives the
    number back for a decimal rendering (["0"] is a non-empty string, hence
    truthy) and [undefined] when the entry was never set. *)
Record DataTransfer := mkDataTransfer {
  dt_source : Zone;
  dt_brandId : BrandId;
  dt_index : option nat
}.

(** What the callback handed to [setTimeout] in [checkSolution] captured from
    the render it was created in. *)
Record WinTimer := mkWinTimer {
  timer_attempts : nat;               (* newHistory.length *)
  timer_elapsedTime : nat;            (* elapsedTime *)
  timer_gameSize : nat;               (* gameSize *)
  timer_targetSequence : list BrandId; (* targetSequence *)
  timer_records : list GameRecord     (* records *)
}.

Record State := mkState {
  gameSize : nat;
  targetSequence : list BrandId;
  currentSlots : list Slot;
  history : list HistoryEntry;
  gameStatus : GameStatus;
  records : list GameRecord;
  maxUnlockedLevel : nat;
  startTime : nat;
  elapsedTime : nat;
  showInstructions : bool;
  showHistory : bool;
  showRecords : bool;
  showWinModal : bool;
  showLevelMenu : bool;
  touchDragItem : option TouchDragItem;
  touchDragPos : option (Z * Z);
  sounds : list Sound;        (* feedback events emitted so far, oldest first *)
  timers : list WinTimer      (* pending [setTimeout] callbacks, oldest first *)
}.

(** The [set...] function of each state hook. *)
Definition setGameSize v s :=
  mkState v (targetSequence s) (currentSlots s) (history s) (gameStatus s)
          (records s) (maxUnlockedLevel s) (startTime s) (elapsedTime s)
          (showInstructions s) (showHistory s) (showRecords s) (showWinModal s)
          (showLevelMenu s) (touchDragItem s) (touchDragPos s) (sounds s)
          (timers s).
Definition setTargetSequence v s :=
  mkState (gameSize s) v (currentSlots s) (history s) (gameStatus s) (records s)
          (maxUnlockedLevel s) (startTime s) (elapsedTime s)
          (showInstructions s) (showHistory s) (showRecords s) (showWinModal s)
          (showLevelMenu s) (touchDragItem s) (touchDragPos s) (sounds s)
          (timers s).
Definition setCurrentSlots v s :=
  mkState (gameSize s) (targetSequence s) v (history s) (gameStatus s)
          (records s) (maxUnlockedLevel s) (startTime s) (elapsedTime s)
          (showInstructions s) (showHistory s) (showRecords s) (showWinModal s)
          (showLevelMenu s) (touchDragItem s) (touchDragPos s) (sounds s)
          (timers s).
Definition setHistory v s :=
  mkState (gameSize s) (targetSequence s) (currentSlots s) v (gameStatus s)
          (records s) (maxUnlockedLevel s) (startTime s) (elapsedTime s)
          (showInstructions s) (showHistory s) (showRecords s) (showWinModal s)
          (showLevelMenu s) (touchDragItem s) (touchDragPos s) (sounds s)
          (timers s).
Definition setGameStatus v s :=
  mkState (gameSize s) (targetSequence s) (currentSlots s) (history s) v
          (records s) (maxUnlockedLevel s) (startTime s) (elapsedTime s)
          (showInstructions s) (showHistory s) (showRecords s) (showWinModal s)
          (showLevelMenu s) (touchDragItem s) (touchDragPos s) (sounds s)
          (timers s).
Definition setRecords v s :=
  mkState (gameSize s) (targetSequence s) (currentSlots s) (history s)
          (gameStatus s) v (maxUnlockedLevel s) (startTime s) (elapsedTime s)
          (showInstructions s) (showHistory s) (showRecords s) (showWinModal s)
          (showLevelMenu s) (touchDragItem s) (touchDragPos s) (sounds s)
          (timers s).
Definition setMaxUnlockedLevel v s :=
  mkState (gameSize s) (targetSequence s) (currentSlots s) (history s)
          (gameStatus s) (records s) v (startTime s) (elapsedTime s)
          (showInstructions s) (showHistory s) (showRecords s) (showWinModal s)
          (showLevelMenu s) (touchDragItem s) (touchDragPos s) (sounds s)
          (timers s).
Definition setStartTime v s :=
  mkState (gameSize s) (targetSequence s) (currentSlots s) (history s)
          (gameStatus s) (records s) (maxUnlockedLevel s) v (elapsedTime s)
          (showInstructions s) (showHistory s) (showRecords s) (showWinModal s)
          (showLevelMenu s) (touchDragItem s) (touchDragPos s) (sounds s)
          (timers s).
Definition setElapsedTime v s :=
  mkState (gameSize s) (targetSequence s) (currentSlots s) (history s)
          (gameStatus s) (records s) (maxUnlockedLevel s) (startTime s) v
          (showInstructions s) (showHistory s) (showRecords s) (showWinModal s)
          (showLevelMenu s) (touchDragItem s) (touchDragPos s) (sounds s)
          (timers s).
Definition setShowInstructions v s :=
  mkState (gameSize s) (targetSequence s) (currentSlots s) (history s)
          (gameStatus s) (records s) (maxUnlockedLevel s) (startTime s)
          (elapsedTime s) v (showHistory s) (showRecords s) (showWinModal s)
          (showLevelMenu s) (touchDragItem s) (touchDragPos s) (sounds s)
          (timers s).
Definition setShowHistory v s :=
  mkState (gameSize s) (targetSequence s) (currentSlots s) (history s)
          (gameStatus s) (records s) (maxUnlockedLevel s) (startTime s)
          (elapsedTime s) (showInstructions s) v (showRecords s)
          (showWinModal s) (showLevelMenu s) (touchDragItem s) (touchDragPos s)
          (sounds s) (timers s).
Definition setShowRecords v s :=
  mkState (gameSize s) (targetSequence s) (currentSlots s) (history s)
          (gameStatus s) (records s) (maxUnlockedLevel s) (startTime s)
          (elapsedTime s) (showInstructions s) (showHistory s) v
          (showWinModal s) (showLevelMenu s) (touchDragItem s) (touchDragPos s)
          (sounds s) (timers s).
Definition setShowWinModal v s :=
  mkState (gameSize s) (targetSequence s) (currentSlots s) (history s)
          (gameStatus s) (records s) (maxUnlockedLevel s) (startTime s)
          (elapsedTime s) (showInstructions s) (showHistory s) (showRecords s) v
          (showLevelMenu s) (touchDragItem s) (touchDragPos s) (sounds s)
          (timers s).
Definition setShowLevelMenu v s :=
  mkState (gameSize s) (targetSequence s) (currentSlots s) (history s)
          (gameStatus s) (records s) (maxUnlockedLevel s) (startTime s)
          (elapsedTime s) (showInstructions s) (showHistory s) (showRecords s)
          (showWinModal s) v (touchDragItem s) (touchDragPos s) (sounds s)
          (timers s).
Definition setTouchDragItem v s :=
  mkState (gameSize s) (targetSequence s) (currentSlots s) (history s)
          (gameStatus s) (records s) (maxUnlockedLevel s) (startTime s)
          (elapsedTime s) (showInstructions s) (showHistory s) (showRecords s)
          (showWinModal s) (showLevelMenu s) v (touchDragPos s) (sounds s)
          (timers s).
Definition setTouchDragPos v s :=
  mkState (gameSize s) (targetSequence s) (currentSlots s) (history s)
          (gameStatus s) (records s) (maxUnlockedLevel s) (startTime s)
          (elapsedTime s) (showInstructions s) (showHistory s) (showRecords s)
          (showWinModal s) (showLevelMenu s) (touchDragItem s) v (sounds s)
          (timers s).
Definition setTimers v s :=
  mkState (gameSize s) (targetSequence s) (currentSlots s) (history s)
          (gameStatus s) (records s) (maxUnlockedLevel s) (startTime s)
          (elapsedTime s) (showInstructions s) (showHistory s) (showRecords s)
          (showWinModal s) (showLevelMenu s) (touchDragItem s) (touchDragPos s)
          (sounds s) v.

(** [playSound(type)]: the feedback event joins the log. *)
Definition playSound (type : Sound) (s : State) : State :=
  mkState (gameSize s) (targetSequence s) (currentSlots s) (history s)
          (gameStatus s) (records s) (maxUnlockedLevel s) (startTime s)
          (elapsedTime s) (showInstructions s) (showHistory s) (showRecords s)
          (showWinModal s) (showLevelMenu s) (touchDragItem s) (touchDragPos s)
          (sounds s ++ [type]) (timers s).

(** [setTimeout(callback, 500)]: the callback joins the pending ones. *)
Definition setTimeout (t : WinTimer) (s : State) : State :=
  setTimers (timers s ++ [t]) s.

(** ** Derived state *)

(** [BRANDS.slice(0, gameSize)] *)
Definition activeBrands (s : State) : list SodaBrand :=
  take (gameSize s) BRANDS.

(** [activeBrands.filter(brand => !currentSlots.includes(brand.id))] *)
Definition availableInventory (s : State) : list SodaBrand :=
  List.filter (fun brand => negb (JsArray.includes (currentSlots s) (brand_id brand)))
    (activeBrands s).

(** ** Core move logic *)

Definition executeMove (source : Zone) (sourceBrandId : BrandId)
    (sourceIndex : option nat) (targetType : Zone) (targetIndex : option nat)
    (s : State) : State :=
  let newSlots := JsArray.spread (currentSlots s) in
  match targetType, targetIndex with
  | slot, Some targetIndex =>
      (* Case 1: dropping onto a slot *)
      match source, sourceIndex with
      | inventory, _ =>
          let newSlots := JsArray.set newSlots targetIndex (Brand sourceBrandId) in
          setCurrentSlots newSlots (playSound snd_drop s)
      | slot, Some sourceIndex =>
          let existingAtTarget := JsArray.get newSlots targetIndex in
          let newSlots := JsArray.set newSlots targetIndex (Brand sourceBrandId) in
          let newSlots := JsArray.set newSlots sourceIndex existingAtTarget in
          setCurrentSlots newSlots (playSound snd_drop s)
      | slot, None => setCurrentSlots newSlots s
      end
  | slot, None => setCurrentSlots newSlots s
  | inventory, _ =>
      (* Case 2: dropping back to the inventory *)
      match source, sourceIndex with
      | slot, Some sourceIndex =>
          let newSlots := JsArray.set newSlots sourceIndex Null in
          setCurrentSlots newSlots (playSound snd_remove s)
      | _, _ => setCurrentSlots newSlots s
      end
  end.

(** ** Mouse drag and drop handlers *)

(** Returns the [dataTransfer] the drag carries, [None] when the drag is
    prevented. *)
Definition handleDragStart (source : Zone) (brandId : BrandId)
    (index : option nat) (s : State) : State * option DataTransfer :=
  if decide (gameStatus s ≠ playing) then (s, None)
  else (playSound snd_pickup s, Some (mkDataTransfer source brandId index)).

Definition handleDropOnSlot (e : DataTransfer) (targetIndex : nat) (s : State) : State :=
  if decide (gameStatus s ≠ playing) then s
  else executeMove (dt_source e) (dt_brandId e) (dt_index e) slot (Some targetIndex) s.

Definition handleDropOnInventory (e : DataTransfer) (s : State) : State :=
  if decide (gameStatus s ≠ playing) then s
  else executeMove (dt_source e) (dt_brandId e) (dt_index e) inventory None s.

(** ** Touch handlers *)

(** What [document.elementFromPoint] and the two [closest] look-ups give at
    the release point: no element at all, or an element with the slot index of
    its enclosing [data-slot-index] node (if any) and whether it lies in the
    inventory drop zone.  The attribute is rendered from an array position, so
    the [-1] fallback of the handler never applies. *)
Inductive Release :=
  | NoElement
  | Element (slotElement : option nat) (inventoryElement : bool).

Definition handleTouchStart (source : Zone) (brandId : BrandId)
    (index : option nat) (touch : Z * Z) (s : State) : State :=
  if decide (gameStatus s ≠ playing) then s
  else
    playSound snd_pickup
      (setTouchDragPos (Some touch)
        (setTouchDragItem (Some (mkTouchDragItem source brandId index)) s)).

Definition handleTouchMove (touch : Z * Z) (s : State) : State :=
  match touchDragItem s with
  | None => s
  | Some _ => setTouchDragPos (Some touch) s
  end.

Definition handleTouchEnd (targetElement : Release) (s : State) : State :=
  match touchDragItem s, touchDragPos s with
  | Some item, Some _ =>
      let s := setTouchDragPos None (setTouchDragItem None s) in
      match targetElement with
      | NoElement => s
      | Element (Some targetIndex) _ =>
          executeMove (drag_source item) (drag_brandId item) (drag_index item)
            slot (Some targetIndex) s
      | Element None true =>
          executeMove (drag_source item) (drag_brandId item) (drag_index item)
            inventory None s
      | Element None false => s
      end
  | _, _ => s
  end.

(** ** Fallback click handlers *)

Definition handleInventoryClick (brandId : BrandId) (s : State) : State :=
  if decide (gameStatus s ≠ playing) then s
  else
    match JsArray.indexOf_null (currentSlots s) with
    | Some firstEmptyIndex =>
        let newSlots := JsArray.spread (currentSlots s) in
        let newSlots := JsArray.set newSlots firstEmptyIndex (Brand brandId) in
        playSound snd_drop (setCurrentSlots newSlots s)
    | None => playSound snd_click s
    end.

Definition handleSlotClick (index : nat) (s : State) : State :=
  if decide (gameStatus s ≠ playing) then s
  else if decide (JsArray.get (currentSlots s) index ≠ Null) then
    let newSlots := JsArray.spread (currentSlots s) in
    let newSlots := JsArray.set newSlots index Null in
    playSound snd_remove (setCurrentSlots newSlots s)
  else s.

(** ** Confirming an arrangement *)

(** The callback of the [forEach] loop of [checkSolution]: [correctCount]
    goes up at a visited position whose brand is the target's. *)
Definition countMatch (targetSequence : list BrandId)
    (brand : Slot) (index : nat) (correctCount : nat) : nat :=
  if JsArray.strict_eq brand (targetSequence !! index)
  then S correctCount else correctCount.

(** [let correctCount = 0; currentGuess.forEach(...)] *)
Definition correctCount (currentGuess : list Slot) (targetSequence : list BrandId) : nat :=
  JsArray.forEach (countMatch targetSequence) currentGuess 0.

(** [nowId] and [nowStamp] are the two readings of [Date.now()]. *)
Definition checkSolution (nowId nowStamp : nat) (s : State) : State :=
  if JsArray.some (fun c => bool_decide (c = Null)) (currentSlots s) then s
  else
    let s1 := playSound snd_confirm s in
    let currentGuess := currentSlots s in
    let correctCount := correctCount currentGuess (targetSequence s) in
    let newEntry :=
      mkEntry (JsArray.toString nowId) (JsArray.spread currentGuess)
              correctCount nowStamp in
    let newHistory := newEntry :: history s in
    let s2 := setHistory newHistory s1 in
    if decide (correctCount = gameSize s) then
      let s3 :=
        if decide (gameSize s = maxUnlockedLevel s ∧ gameSize s < length BRANDS)
        then setMaxUnlockedLevel (gameSize s + 1) s2
        else s2 in
      setTimeout
        (mkWinTimer (length newHistory) (elapsedTime s) (gameSize s)
                    (targetSequence s) (records s))
        s3
    else s2.

(** The callback of the [setTimeout] in [checkSolution], run for the oldest
    pending timer. *)
Definition winTimeout (nowId nowStamp : nat) (s : State) : State :=
  match timers s with
  | [] => s
  | t :: pending =>
      let s := setTimers pending s in
      let s := playSound snd_win s in
      let s := setGameStatus won s in
      let s := setShowWinModal true s in
      let newRecord :=
        mkRecord (JsArray.toString nowId) nowStamp (timer_attempts t)
                 (timer_elapsedTime t) (timer_gameSize t)
                 (Some (timer_targetSequence t)) in
      let updatedRecords := timer_records t ++ [newRecord] in
      setRecords updatedRecords s
  end.

(** The history panel: [history.map((entry, idx) => <HistoryRow entry={entry}
    index={history.length - 1 - idx} />)], each row as the pair of its props. *)
Definition historyRows (history : list HistoryEntry) : list (HistoryEntry * nat) :=
  imap (fun idx entry => (entry, length history - 1 - idx)) history.

(** ** Timer and dialogs *)

Definition timerRuns (s : State) : bool :=
  bool_decide (gameStatus s = playing) && negb (showInstructions s) && negb (showLevelMenu s).

(** The interval callback of the timer effect. *)
Definition timerTick (now : nat) (s : State) : State :=
  if timerRuns s then setElapsedTime ((now - startTime s) / 1000) s else s.

(** The body of the timer effect, run when one of its dependencies changed. *)
Definition timerEffect (now : nat) (s : State) : State :=
  if timerRuns s then
    if decide (startTime s = 0) then setStartTime now s else s
  else s.

Definition toggleHistory (s : State) : State :=
  playSound snd_click (setShowHistory (negb (showHistory s)) s).

Definition closeHistory (s : State) : State := setShowHistory false s.

Definition openRecords (s : State) : State :=
  playSound snd_click (setShowRecords true s).

Definition closeRecords (s : State) : State :=
  playSound snd_click (setShowRecords false s).

Definition openLevelMenu (s : State) : State :=
  playSound snd_click (setShowLevelMenu true s).

Definition closeLevelMenu (s : State) : State := setShowLevelMenu false s.

Definition closeWinModal (s : State) : State :=
  playSound snd_click (setShowWinModal false s).

Definition openInstructions (s : State) : State :=
  playSound snd_click (setShowInstructions true s).

Definition closeInstructions (now : nat) (s : State) : State :=
  let s' := playSound snd_click (setShowInstructions false s) in
  if decide (startTime s = 0) then setStartTime now s' else s'.

(** ** The records ranking *)

(** The comparison function handed to [sort] for [sortedRecords]. *)
Definition compareRecords (a b : GameRecord) : Z :=
  if decide (record_difficulty b ≠ record_difficulty a)
  then Z.of_nat (record_difficulty b) - Z.of_nat (record_difficulty a)
  else if decide (record_attempts a ≠ record_attempts b)
  then Z.of_nat (record_attempts a) - Z.of_nat (record_attempts b)
  else Z.of_nat (record_durationSeconds a) - Z.of_nat (record_durationSeconds b).

(** A comparison function that is consistent in the sense of ECMAScript:
    reflexive, sign-antisymmetric, and transitive on "not after". *)
Record Consistent {A : Type} (cmp : A -> A -> Z) : Prop := {
  cmp_refl : forall a, cmp a a = 0%Z;
  cmp_antisym : forall a b, (cmp a b < 0)%Z <-> (0 < cmp b a)%Z;
  cmp_trans : forall a b c, (cmp a b <= 0)%Z -> (cmp b c <= 0)%Z -> (cmp a c <= 0)%Z
}.

(** The guarantees of [Array.prototype.sort].  A comparison function may have
    state ([() => Math.random() - 0.5]): it gets the number of the call.
    Whatever it answers, sorting only rearranges the elements; when it is
    consistent the result is in its order. *)
Record SortContract (sort : forall A : Type, (nat -> A -> A -> Z) -> list A -> list A) : Prop := {
  sort_permutation :
    forall (A : Type) (cmp : nat -> A -> A -> Z) (l : list A), sort A cmp l ≡ₚ l;
  sort_sorted :
    forall (A : Type) (cmp : A -> A -> Z) (l : list A),
      Consistent cmp ->
      StronglySorted (fun a b => (cmp a b <= 0)%Z) (sort A (fun _ => cmp) l)
}.

(** Arrays of game records as objects: a store from references to contents. *)
Abbreviation Heap := (gmap nat (list GameRecord)).

Section Engine.

(** [Array.prototype.sort] *)
Variable jsSort : forall A : Type, (nat -> A -> A -> Z) -> list A -> list A.

(** *** Starting a game *)

(** [random k] stands for the value of [Math.random() - 0.5] in the [k]-th
    call of the comparison function (only its sign can matter); [now] is the
    reading of [Date.now()]. *)
Definition initGame (now : nat) (random : nat -> Z) (size : nat) (s : State) : State :=
  let safeSize := Nat.min size (length BRANDS) in
  let currentActiveBrands := take safeSize BRANDS in
  let shuffled := jsSort SodaBrand (fun k _ _ => random k) currentActiveBrands in
  let s := setTargetSequence (brand_id <$> shuffled) s in
  let s := setCurrentSlots (replicate safeSize Null) s in
  let s := setHistory [] s in
  let s := setGameStatus playing s in
  let s := setShowWinModal false s in
  let s := setShowLevelMenu false s in
  let s := setStartTime now s in
  let s := setElapsedTime 0 s in
  playSound snd_click s.

Definition handleNextLevel (now : nat) (random : nat -> Z) (s : State) : State :=
  if decide (gameSize s < length BRANDS) then
    let newSize := gameSize s + 1 in
    initGame now random newSize (setGameSize newSize s)
  else s.

Definition handleRetryLevel (now : nat) (random : nat -> Z) (s : State) : State :=
  initGame now random (gameSize s) s.

Definition handleSelectLevel (now : nat) (random : nat -> Z) (level : nat) (s : State) : State :=
  if decide (level <= maxUnlockedLevel s) then
    initGame now random level (setGameSize level s)
  else playSound snd_click s.

(** The "next level (already unlocked)" button of the win dialog. *)
Definition nextUnlockedLevel (now : nat) (random : nat -> Z) (s : State) : State :=
  let next := gameSize s + 1 in
  initGame now random next (setGameSize next s).

(** *** The sorted view of the records *)

(** [[...records]]: a new array object with the same contents. *)
Definition spreadRecords (recordsRef : nat) (h : Heap) : nat * Heap :=
  let copy := fresh (dom h) in
  (copy, <[copy := default [] (h !! recordsRef)]> h).

(** [a.sort(cmp)]: sorts the array object [a] in place and returns it. *)
Definition sortInPlace (cmp : GameRecord -> GameRecord -> Z) (a : nat) (h : Heap) : nat * Heap :=
  (a, alter (jsSort GameRecord (fun _ => cmp)) a h).

(** [const sortedRecords = [...records].sort((a, b) => ...)] *)
Definition sortedRecords (recordsRef : nat) (h : Heap) : nat * Heap :=
  let '(copy, h) := spreadRecords recordsRef h in
  sortInPlace compareRecords copy h.

(** *** Every operation of a running game *)

Inductive Op :=
  | DragStart (source : Zone) (brandId : BrandId) (index : option nat)
  | DropOnSlot (e : DataTransfer) (targetIndex : nat)
  | DropOnInventory (e : DataTransfer)
  | TouchStart (source : Zone) (brandId : BrandId) (index : option nat) (touch : Z * Z)
  | TouchMove (touch : Z * Z)
  | TouchEnd (targetElement : Release)
  | InventoryClick (brandId : BrandId)
  | SlotClick (index : nat)
  | CheckSolution (nowId nowStamp : nat)
  | WinTimeout (nowId nowStamp : nat)
  | Restart (now : nat) (random : nat -> Z)
  | NextLevel (now : nat) (random : nat -> Z)
  | RetryLevel (now : nat) (random : nat -> Z)
  | SelectLevel (now : nat) (random : nat -> Z) (level : nat)
  | NextUnlockedLevel (now : nat) (random : nat -> Z)
  | TimerTick (now : nat)
  | TimerEffect (now : nat)
  | ToggleHistory
  | CloseHistory
  | OpenRecords
  | CloseRecords
  | OpenLevelMenu
  | CloseLevelMenu
  | CloseWinModal
  | OpenInstructions
  | CloseInstructions (now : nat).

Definition step (s : State) (op : Op) : State :=
  match op with
  | DragStart source brandId index => fst (handleDragStart source brandId index s)
  | DropOnSlot e targetIndex => handleDropOnSlot e targetIndex s
  | DropOnInventory e => handleDropOnInventory e s
  | TouchStart source brandId index touch => handleTouchStart source brandId index touch s
  | TouchMove touch => handleTouchMove touch s
  | TouchEnd targetElement => handleTouchEnd targetElement s
  | InventoryClick brandId => handleInventoryClick brandId s
  | SlotClick index => handleSlotClick index s
  | CheckSolution nowId nowStamp => checkSolution nowId nowStamp s
  | WinTimeout nowId nowStamp => winTimeout nowId nowStamp s
  | Restart now random => initGame now random (gameSize s) s
  | NextLevel now random => handleNextLevel now random s
  | RetryLevel now random => handleRetryLevel now random s
  | SelectLevel now random level => handleSelectLevel now random level s
  | NextUnlockedLevel now random => nextUnlockedLevel now random s
  | TimerTick now => timerTick now s
  | TimerEffect now => timerEffect now s
  | ToggleHistory => toggleHistory s
  | CloseHistory => closeHistory s
  | OpenRecords => openRecords s
  | CloseRecords => closeRecords s
  | OpenLevelMenu => openLevelMenu s
  | CloseLevelMenu => closeLevelMenu s
  | CloseWinModal => closeWinModal s
  | OpenInstructions => openInstructions s
  | CloseInstructions now => closeInstructions now s
  end.

Definition run (s : State) (ops : list Op) : State := foldl step s ops.

End Engine.

(** ** One sort that meets the contract *)

Module InsertionSort.

(** Insertion into a sorted list; [calls] counts the comparisons made so
    far and numbers the next one. *)
Fixpoint insert {A : Type} (cmp : nat -> A -> A -> Z) (calls : nat)
    (x : A) (l : list A) : nat * list A :=
  match l with
  | [] => (calls, [x])
  | y :: l' =>
      if decide (cmp calls x y <= 0)%Z then (S calls, x :: y :: l')
      else
        let '(calls', r) := insert cmp (S calls) x l' in
        (calls', y :: r)
  end.

Fixpoint sort_from {A : Type} (cmp : nat -> A -> A -> Z) (calls : nat)
    (l : list A) : nat * list A :=
  match l with
  | [] => (calls, [])
  | x :: l' =>
      let '(calls', r) := sort_from cmp calls l' in
      insert cmp calls' x r
  end.

Definition sort (A : Type) (cmp : nat -> A -> A -> Z) (l : list A) : list A :=
  (sort_from cmp 0 l).2.

End InsertionSort.

(** ** Notions the properties are stated with *)

(** The number of positions [i] with [B[i] = T[i]]. *)
Definition matchCount (B T : list BrandId) : nat :=
  length (List.filter (fun i => bool_decide (B !! i = T !! i)) (seq 0 (length B))).

(** A board that inhabits its declared type [(BrandId | null)[]]. *)
Definition wellTyped (board : list Slot) : Prop :=
  Forall (fun c => c = Null \/ exists b, c = Brand b) board.

(** No brand id occupies two slots. *)
Definition distinctSlots (board : list Slot) : Prop :=
  forall i j b, board !! i = Some (Brand b) -> board !! j = Some (Brand b) -> i = j.

(** The ids of a list of brands. *)
Definition ids (brands : list SodaBrand) : list BrandId := brand_id <$> brands.

(** The board right after [initGame] for a selectable size: one slot per
    active brand, all of them empty. *)
Definition freshBoard (s : State) : Prop :=
  currentSlots s = replicate (gameSize s) Null.

(** A move as the input adapters hand it to [executeMove]: the render offers
    a drag or touch start on every inventory brand, without an index, and on
    every occupied slot, with its brand and position; a release lands on one
    of the [gameSize] slot elements or on the inventory tray. *)
Inductive adapterSource (s : State) : Zone -> BrandId -> option nat -> Prop :=
  | source_inventory brand :
      brand ∈ availableInventory s ->
      adapterSource s inventory (brand_id brand) None
  | source_slot i b :
      i < gameSize s ->
      currentSlots s !! i = Some (Brand b) ->
      adapterSource s slot b (Some i).

Inductive adapterTarget (s : State) : Zone -> option nat -> Prop :=
  | target_slot j : j < gameSize s -> adapterTarget s slot (Some j)
  | target_inventory : adapterTarget s inventory None.

(** The states a game reaches from [s0] by moves: calls of [executeMove] as
    the adapters make them, and the two click shortcuts (a click on an
    inventory can, a click on a slot). *)
Inductive reachable (s0 : State) : State -> Prop :=
  | reach_start : reachable s0 s0
  | reach_move s source brandId sourceIndex targetType targetIndex :
      reachable s0 s ->
      adapterSource s source brandId sourceIndex ->
      adapterTarget s targetType targetIndex ->
      reachable s0 (executeMove source brandId sourceIndex targetType targetIndex s)
  | reach_inventory_click s brand :
      reachable s0 s ->
      brand ∈ availableInventory s ->
      reachable s0 (handleInventoryClick (brand_id brand) s)
  | reach_slot_click s i :
      reachable s0 s ->
      i < gameSize s ->
      reachable s0 (handleSlotClick i s).

(** The ranking of the records view: harder first, then fewer attempts, then
    the shorter time. *)
Definition ranksBefore (a b : GameRecord) : Prop :=
  record_difficulty a > record_difficulty b
  \/ (record_difficulty a = record_difficulty b
      /\ (record_attempts a < record_attempts b
          \/ (record_attempts a = record_attempts b
              /\ record_durationSeconds a <= record_durationSeconds b))).

(** A confirm wins when every position matches. *)
Definition winningConfirm (s : State) : Prop :=
  JsArray.some (fun c => bool_decide (c = Null)) (currentSlots s) = false
  /\ correctCount (currentSlots s) (targetSequence s) = gameSize s.

(** [disabled={currentSlots.some(s => s === null)}] on the confirm button. *)
Definition confirmDisabled (s : State) : bool :=
  JsArray.some (fun c => bool_decide (c = Null)) (currentSlots s).

(** ** Sample games *)

(** A game of size 5 that has just started. *)
Definition newGame : State :=
  mkState 5 [lime; cola; grape; water; orange] (replicate 5 Null) [] playing []
          5 0 0 false false false false false None None [] [].

(** The same game with two brands placed: [cola, null, lime, null, null]. *)
Definition partlyFilled : State :=
  setCurrentSlots [Brand cola; Null; Brand lime; Null; Null] newGame.

(** The entry of an earlier attempt, [cola, lime, grape, orange, water]. *)
Definition firstAttempt : HistoryEntry :=
  mkEntry "1000" (Brand <$> [cola; lime; grape; orange; water]) 1 1000.

(** The board filled up to [cola, grape, lime, water, orange], with that
    earlier attempt in the log. *)
Definition secondAttempt : State :=
  setHistory [firstAttempt]
    (setCurrentSlots (Brand <$> [cola; grape; lime; water; orange]) newGame).

(** The board filled as the target is. *)
Definition solved : State :=
  setCurrentSlots (Brand <$> [lime; cola; grape; water; orange]) newGame.

(** A finger goes down on the can in slot 0 and stays there; a second
    pointer confirms the solved board; the win callback runs; the win dialog
    is closed to look at the table. *)
Definition wonWithTouchHeld : State :=
  run InsertionSort.sort solved
    [ TouchStart slot lime (Some 0) (120, 300)%Z;
      CheckSolution 2000 2000;
      WinTimeout 2500 2500;
      CloseWinModal ].

(** A finger goes down on the cola can in slot 0 of [cola, null, lime, null,
    null] and stays there; a second pointer clicks that slot empty and then
    clicks grape in the inventory, which lands in slot 0; the finger is lifted
    over slot 2. *)
Definition staleTouchBefore : State :=
  run InsertionSort.sort partlyFilled
    [ TouchStart slot cola (Some 0) (120, 300)%Z;
      SlotClick 0;
      InventoryClick grape ].

Definition staleTouchRelease : State :=
  handleTouchEnd (Element (Some 2) false) staleTouchBefore.

(** Three records kept in the order they were won. *)
Definition sampleRecords : list GameRecord :=
  [ mkRecord "10" 10 4 60 5 None;
    mkRecord "20" 20 9 30 6 None;
    mkRecord "30" 30 4 45 5 None ].

(** ** More of the component *)

(** *** Numbers and strings *)

(** A JavaScript number that came out of [parseInt]. *)
Inductive JsNumber :=
  | Num (z : Z)
  | NaN.

(** White space that [parseInt] skips (the ASCII part of it). *)
Definition isWhiteSpace (c : ascii) : bool :=
  match nat_of_ascii c with
  | 9 | 10 | 11 | 12 | 13 | 32 => true
  | _ => false
  end.

Definition digitValue (c : ascii) : option nat :=
  let n := nat_of_ascii c in
  if Nat.leb 48 n && Nat.leb n 57 then Some (n - 48) else None.

Fixpoint skipWhiteSpace (str : string) : string :=
  match str with
  | String c rest => if isWhiteSpace c then skipWhiteSpace rest else str
  | EmptyString => EmptyString
  end.

(** The value of the longest run of decimal digits at the head of [str]. *)
Fixpoint parseDigits (str : string) (acc : nat) : nat :=
  match str with
  | String c rest =>
      match digitValue c with
      | Some d => parseDigits rest (10 * acc + d)
      | None => acc
      end
  | EmptyString => acc
  end.

(** [parseInt(str, 10)]: leading white space, an optional sign, then the
    digits up to the first other character; [NaN] without a digit.  As
    everywhere in this development numbers are exact, which JavaScript's are
    for integers below [2^53]. *)
Definition parseInt (str : string) : JsNumber :=
  let str := skipWhiteSpace str in
  let '(negative, str) :=
    match str with
    | String "-"%char rest => (true, rest)
    | String "+"%char rest => (false, rest)
    | _ => (false, str)
    end in
  match str with
  | String c _ =>
      match digitValue c with
      | Some _ =>
          let n := Z.of_nat (parseDigits str 0) in
          Num (if negative : bool then (- n)%Z else n)
      | None => NaN
      end
  | EmptyString => NaN
  end.

(** [str.padStart(targetLength, padChar)] for a one-character pad. *)
Definition padStart (targetLength : nat) (padChar : ascii) (str : string) : string :=
  String.append
    (string_of_list_ascii (replicate (targetLength - String.length str) padChar))
    str.

(** [formatTime] *)
Definition formatTime (seconds : nat) : string :=
  let m := seconds / 60 in
  let s := seconds mod 60 in
  String.append (JsArray.toString m)
    (String.append ":" (padStart 2 "0"%char (JsArray.toString s))).

(** *** The index a drag carries *)

(** What [e.dataTransfer.getData('index')] gives at the drop after
    [handleDragStart] was called with [index]: the entry is set to
    [index.toString()] for a number and is not set otherwise, and a missing
    entry reads as the empty string. *)
Definition indexData (index : option nat) : string :=
  match index with
  | Some index => JsArray.toString index
  | None => ""
  end.

(** [sourceIndexRaw ? parseInt(sourceIndexRaw, 10) : undefined] *)
Definition sourceIndexOf (sourceIndexRaw : string) : option JsNumber :=
  if decide (sourceIndexRaw = "") then None else Some (parseInt sourceIndexRaw).

(** *** The persisted level *)

(** The string [checkSolution] hands to
    [localStorage.setItem('soda_sort_max_level', ...)], if it does. *)
Definition storedMaxLevel (s : State) : option string :=
  if JsArray.some (fun c => bool_decide (c = Null)) (currentSlots s) then None
  else if decide (correctCount (currentSlots s) (targetSequence s) = gameSize s) then
    if decide (gameSize s = maxUnlockedLevel s /\ gameSize s < length BRANDS)
    then Some (JsArray.toString (gameSize s + 1))
    else None
  else None.

(** The mount effect on [savedMaxLevel = localStorage.getItem(...)]: the
    argument of [setMaxUnlockedLevel], or [None] when it is not called (no
    entry, an empty entry, or one that does not parse). *)
Definition mountMaxLevel (savedMaxLevel : option string) : option Z :=
  match savedMaxLevel with
  | None => None
  | Some str =>
      if decide (str = "") then None
      else
        match parseInt str with
        | NaN => None
        | Num level => Some (Z.min level (Z.of_nat (length BRANDS)))
        end
  end.

(** *** What is rendered *)

Inductive CanSize := xs | sm | md | lg.

(** [getResponsiveSize] *)
Definition getResponsiveSize (s : State) : CanSize :=
  if decide (9 <= gameSize s) then xs
  else if decide (6 <= gameSize s) then sm
  else md.

(** The props of [SodaCan] that decide what it renders. *)
Record SodaCanProps := mkCanProps {
  can_brandId : Slot;
  can_disabled : bool;
  can_size : CanSize;
  can_isHidden : bool;
  can_draggable : bool
}.

(** The three things a [SodaCan] can be: the mystery box, the empty marking
    on the mat (with its click handler attached or not), or the can of a
    brand (click and drag-start handlers attached or not, draggable or not). *)
Inductive CanView :=
  | MysteryBox (size : CanSize)
  | EmptyMarking (size : CanSize) (clickable : bool)
  | Can (brand : SodaBrand) (size : CanSize) (clickable draggable : bool).

(** [BRANDS.find(b => b.id === brandId)] *)
Definition findBrand (brandId : Slot) : option SodaBrand :=
  List.find (fun b => bool_decide (Brand (brand_id b) = brandId)) BRANDS.

Definition SodaCan (props : SodaCanProps) : CanView :=
  let brand := findBrand (can_brandId props) in
  if can_isHidden props then MysteryBox (can_size props)
  else
    match can_brandId props, brand with
    | Brand _, Some brand =>
        Can brand (can_size props) (negb (can_disabled props))
            (can_draggable props && negb (can_disabled props))
    | _, _ => EmptyMarking (can_size props) (negb (can_disabled props))
    end.

(** The row of the target: [targetSequence.map(brand => <SodaCan
    brandId={brand} isHidden={gameStatus !== 'won'} size={currentCanSize} />)]. *)
Definition targetRow (s : State) : list CanView :=
  (fun brand =>
     SodaCan (mkCanProps (Brand brand) false (getResponsiveSize s)
                         (bool_decide (gameStatus s ≠ won)) false))
    <$> targetSequence s.

(** The confirm button in the tray is there when
    [availableInventory.length === 0 && gameStatus !== 'won']. *)
Definition confirmButtonShown (s : State) : bool :=
  bool_decide (length (availableInventory s) = 0)
  && bool_decide (gameStatus s ≠ won).


(** The win dialog is there when [gameStatus === 'won' && showWinModal]. *)
Definition winDialogShown (s : State) : bool :=
  bool_decide (gameStatus s = won) && showWinModal s.

(** What the win dialog offers above the retry button. *)
Inductive WinDialogOffer :=
  | NextUnlockedButton     (* "next level (already unlocked)" *)
  | UnlockNextButton       (* "unlock the next difficulty", [handleNextLevel] *)
  | MaxDifficultyNotice.   (* "highest difficulty reached" *)

Definition winDialogOffer (s : State) : WinDialogOffer :=
  if decide (gameSize s < length BRANDS /\ gameSize s < maxUnlockedLevel s)
  then NextUnlockedButton
  else if decide (gameSize s < length BRANDS) then UnlockNextButton
  else MaxDifficultyNotice.

(** The levels of the level menu:
    [Array.from({ length: BRANDS.length - DEFAULT_GAME_SIZE + 1 })] mapped to
    [DEFAULT_GAME_SIZE + i]. *)
Definition levelMenu : list nat :=
  (fun i => DEFAULT_GAME_SIZE + i) <$> seq 0 (length BRANDS - DEFAULT_GAME_SIZE + 1).

(** The two marks of a [HistoryRow]: the check icon, shown when
    [entry.correctCount === entry.arrangement.length], and the emerald count,
    shown when [entry.correctCount === 5]. *)
Definition historyRowCheck (entry : HistoryEntry) : bool :=
  bool_decide (entry_correctCount entry = length (entry_arrangement entry)).

Definition historyRowEmerald (entry : HistoryEntry) : bool :=
  bool_decide (entry_correctCount entry = 5).

(** *** Kinds of operations *)

(** The operations that call [initGame]. *)
Definition startsGame (op : Op) : bool :=
  match op with
  | Restart _ _ | NextLevel _ _ | RetryLevel _ _ | SelectLevel _ _ _
  | NextUnlockedLevel _ _ => true
  | _ => false
  end.

Definition isConfirm (op : Op) : bool :=
  match op with CheckSolution _ _ => true | _ => false end.

Definition isWinTimeout (op : Op) : bool :=
  match op with WinTimeout _ _ => true | _ => false end.

Definition isTouchEnd (op : Op) : bool :=
  match op with TouchEnd _ => true | _ => false end.


(** * Properties *)

(** ** The insertion sort meets the contract of [Array.prototype.sort] *)

Lemma insertion_insert_perm {A} (cmp : nat -> A -> A -> Z) x l :
  forall calls, (InsertionSort.insert cmp calls x l).2 ≡ₚ x :: l.
Proof.
  induction l as [|y l IH]; intros calls; simpl; [done|].
  case_decide; simpl; [done|].
  specialize (IH (S calls)).
  destruct (InsertionSort.insert cmp (S calls) x l) as [calls' r]; simpl in *.
  rewrite IH. apply Permutation_swap.
Qed.

Lemma insertion_sort_from_perm {A} (cmp : nat -> A -> A -> Z) l :
  forall calls, (InsertionSort.sort_from cmp calls l).2 ≡ₚ l.
Proof.
  induction l as [|x l IH]; intros calls; simpl; [done|].
  specialize (IH calls).
  destruct (InsertionSort.sort_from cmp calls l) as [calls' r]; simpl in *.
  rewrite insertion_insert_perm. by rewrite IH.
Qed.

Lemma insertion_insert_sorted {A} (cmp : A -> A -> Z) x l :
  Consistent cmp ->
  StronglySorted (fun a b => (cmp a b <= 0)%Z) l ->
  forall calls,
    StronglySorted (fun a b => (cmp a b <= 0)%Z) (InsertionSort.insert (fun _ => cmp) calls x l).2.
Proof.
  intros Hc. induction 1 as [|y l Hs IH Hy]; intros calls; simpl.
  - repeat constructor.
  - case_decide as Hxy; simpl.
    + constructor; [by constructor|].
      constructor; [done|].
      eapply Forall_impl; [exact Hy|].
      intros z Hz; simpl in Hz. by eapply (cmp_trans _ Hc).
    + specialize (IH (S calls)).
      pose proof (insertion_insert_perm (fun _ => cmp) x l (S calls)) as Hp.
      destruct (InsertionSort.insert (fun _ : nat => cmp) (S calls) x l) as [calls' r]; simpl in *.
      constructor; [done|].
      rewrite Hp. constructor; [|done].
      assert (0 < cmp x y)%Z as Hpos by lia.
      apply (cmp_antisym _ Hc) in Hpos. lia.
Qed.

Lemma insertion_sort_from_sorted {A} (cmp : A -> A -> Z) l :
  Consistent cmp ->
  forall calls,
    StronglySorted (fun a b => (cmp a b <= 0)%Z) (InsertionSort.sort_from (fun _ => cmp) calls l).2.
Proof.
  intros Hc. induction l as [|x l IH]; intros calls; simpl; [constructor|].
  specialize (IH calls).
  destruct (InsertionSort.sort_from (fun _ : nat => cmp) calls l) as [calls' r]; simpl in *.
  by apply insertion_insert_sorted.
Qed.

Lemma insertion_sort_contract : SortContract InsertionSort.sort.
Proof.
  split.
  - intros A cmp l. apply insertion_sort_from_perm.
  - intros A cmp l Hc. by apply insertion_sort_from_sorted.
Qed.

(** ** Arrays that inhabit their declared type *)

Lemma wellTyped_no_hole board : wellTyped board -> Hole ∉ board.
Proof.
  intros Hw Hin. unfold wellTyped in Hw. rewrite Forall_forall in Hw.
  destruct (Hw _ Hin) as [?|[? ?]]; discriminate.
Qed.

Lemma spread_wellTyped board : wellTyped board -> JsArray.spread board = board.
Proof.
  induction 1 as [|c l Hc _ IH]; [done|].
  unfold JsArray.spread in *. rewrite fmap_cons, IH.
  by destruct Hc as [->|[b ->]].
Qed.

Lemma set_in_range board i v :
  i < length board -> JsArray.set board i v = <[i := v]> board.
Proof. intros Hi. unfold JsArray.set. by rewrite decide_True. Qed.

Lemma get_wellTyped board i c :
  wellTyped board -> board !! i = Some c -> JsArray.get board i = c.
Proof.
  intros Hw Hi. unfold JsArray.get. rewrite Hi.
  destruct c; try done.
  exfalso. apply (wellTyped_no_hole _ Hw). by eapply list_elem_of_lookup_2.
Qed.

Lemma wellTyped_insert board i c :
  wellTyped board -> (c = Null \/ exists b, c = Brand b) -> wellTyped (<[i := c]> board).
Proof. intros Hw Hc. by apply Forall_insert. Qed.

Lemma wellTyped_lookup board i c :
  wellTyped board -> board !! i = Some c -> c = Null \/ exists b, c = Brand b.
Proof. intros Hw Hi. unfold wellTyped in Hw. by eapply Forall_lookup_1 in Hw. Qed.

Lemma wellTyped_replicate n : wellTyped (replicate n Null).
Proof. apply Forall_replicate. by left. Qed.

Lemma wellTyped_brands (B : list BrandId) : wellTyped (Brand <$> B).
Proof. apply Forall_fmap, Forall_true. intros b. right. by exists b. Qed.

Lemma some_null_spec board :
  JsArray.some (fun c => bool_decide (c = Null)) board = true <-> Null ∈ board.
Proof.
  unfold JsArray.some. rewrite existsb_exists. split.
  - intros (c & Hin & Hc). apply list_elem_of_In in Hin.
    destruct c; try done.
  - intros Hin. exists Null. split; [by apply list_elem_of_In | done].
Qed.

Lemma some_null_brands (B : list BrandId) :
  JsArray.some (fun c => bool_decide (c = Null)) (Brand <$> B) = false.
Proof.
  apply not_true_is_false. rewrite some_null_spec.
  intros (b & Hb & _)%list_elem_of_fmap. discriminate.
Qed.

(** ** Scoring *)

Lemma forEach_from_shift {S : Type} (f : Slot -> nat -> S -> S) a :
  forall index acc,
    JsArray.forEach_from f a (Datatypes.S index) acc
    = JsArray.forEach_from (fun c i => f c (Datatypes.S i)) a index acc.
Proof. induction a as [|c a IH]; intros index acc; simpl; [done|]. by rewrite IH. Qed.

Lemma forEach_from_ext {S : Type} (f g : Slot -> nat -> S -> S) a :
  (forall c i acc, f c i acc = g c i acc) ->
  forall index acc, JsArray.forEach_from f a index acc = JsArray.forEach_from g a index acc.
Proof.
  intros Hfg. induction a as [|c a IH]; intros index acc; simpl; [done|].
  rewrite IH. by destruct c; rewrite ?Hfg.
Qed.

Lemma correctCount_from_acc T a :
  forall index acc,
    JsArray.forEach_from (countMatch T) a index acc
    = acc + JsArray.forEach_from (countMatch T) a index 0.
Proof.
  induction a as [|c a IH]; intros index acc; simpl; [lia|].
  rewrite IH.
  rewrite (IH _ (match c with Hole => 0 | _ => countMatch T c index 0 end)).
  unfold countMatch. destruct c; try lia; destruct (JsArray.strict_eq _ _); lia.
Qed.

Lemma correctCount_cons b B t T :
  correctCount (Brand <$> b :: B) (t :: T)
  = (if bool_decide (b = t) then 1 else 0) + correctCount (Brand <$> B) T.
Proof.
  unfold correctCount, JsArray.forEach. simpl.
  rewrite forEach_from_shift.
  rewrite (forEach_from_ext _ (countMatch T)) by done.
  rewrite correctCount_from_acc. unfold countMatch. simpl.
  by destruct (bool_decide (b = t)).
Qed.

Lemma correctCount_nil_r B : correctCount (Brand <$> B) [] = 0.
Proof.
  unfold correctCount, JsArray.forEach. generalize 0 at 1.
  induction B as [|b B IH]; intros n; simpl; [done|]. apply IH.
Qed.

Lemma filter_seq_succ (P : nat -> bool) n :
  forall k,
    length (List.filter P (seq (S k) n))
    = length (List.filter (fun i => P (S i)) (seq k n)).
Proof.
  induction n as [|n IH]; intros k; simpl; [done|].
  destruct (P (S k)); simpl; by rewrite IH.
Qed.

Lemma matchCount_cons b B t T :
  matchCount (b :: B) (t :: T) = (if bool_decide (b = t) then 1 else 0) + matchCount B T.
Proof.
  unfold matchCount. simpl length at 2. simpl seq. simpl List.filter.
  assert (bool_decide (Some b = Some t) = bool_decide (b = t)) as ->.
  { apply bool_decide_ext. split; congruence. }
  destruct (bool_decide (b = t)); simpl; by rewrite filter_seq_succ.
Qed.

Lemma correctCount_matchCount (B T : list BrandId) :
  length B = length T -> correctCount (Brand <$> B) T = matchCount B T.
Proof.
  revert T. induction B as [|b B IH]; intros [|t T] Hlen; try done.
  rewrite correctCount_cons, matchCount_cons, IH; [done|].
  simpl in Hlen. lia.
Qed.

Lemma correctCount_self (T : list BrandId) : correctCount (Brand <$> T) T = length T.
Proof.
  induction T as [|t T IH]; [done|].
  rewrite correctCount_cons, IH, bool_decide_eq_true_2 by done. done.
Qed.

Lemma correctCount_disjoint (B T : list BrandId) :
  (forall i b t, B !! i = Some b -> T !! i = Some t -> b ≠ t) ->
  correctCount (Brand <$> B) T = 0.
Proof.
  revert T. induction B as [|b B IH]; intros [|t T] Hne; try done.
  - apply correctCount_nil_r.
  - rewrite correctCount_cons, IH.
    + rewrite bool_decide_eq_false_2; [done|]. by apply (Hne 0).
    + intros i b' t' Hb Ht. by apply (Hne (S i)).
Qed.

Lemma checkSolution_full nowId nowStamp s :
  JsArray.some (fun c => bool_decide (c = Null)) (currentSlots s) = false ->
  history (checkSolution nowId nowStamp s)
  = mkEntry (JsArray.toString nowId) (JsArray.spread (currentSlots s))
            (correctCount (currentSlots s) (targetSequence s)) nowStamp
    :: history s.
Proof.
  intros Hfull. unfold checkSolution. rewrite Hfull.
  repeat case_decide; reflexivity.
Qed.

(** C1.  For a fully filled board [B] and a target [T] of the same length the
    scorer run by [checkSolution] counts the positions [i] with
    [B[i] = T[i]], and that count is what the new history entry records; the
    target scored against itself gives its length; a board that differs from
    the target at every position gives 0. *)
Theorem scoring_counts_matching_positions
    (B T : list BrandId) (nowId nowStamp : nat) (s : State) :
  length B = length T ->
  currentSlots s = Brand <$> B ->
  targetSequence s = T ->
  correctCount (Brand <$> B) T = matchCount B T
  /\ entry_correctCount <$> head (history (checkSolution nowId nowStamp s))
     = Some (matchCount B T)
  /\ correctCount (Brand <$> T) T = length T
  /\ ((forall i b t, B !! i = Some b -> T !! i = Some t -> b ≠ t) ->
      correctCount (Brand <$> B) T = 0).
Proof.
  intros Hlen Hs Ht. split_and!.
  - by apply correctCount_matchCount.
  - rewrite checkSolution_full by (rewrite Hs; apply some_null_brands).
    simpl. rewrite Hs, Ht. f_equal. by apply correctCount_matchCount.
  - apply correctCount_self.
  - apply correctCount_disjoint.
Qed.

(** The second attempt of the sample game scores 2: water and orange are in
    place. *)
Lemma scoring_counts_matching_positions_witness :
  length [cola; grape; lime; water; orange] = length [lime; cola; grape; water; orange]
  /\ currentSlots secondAttempt = Brand <$> [cola; grape; lime; water; orange]
  /\ targetSequence secondAttempt = [lime; cola; grape; water; orange]
  /\ correctCount (Brand <$> [cola; grape; lime; water; orange])
                  [lime; cola; grape; water; orange] = 2
  /\ entry_correctCount <$> head (history (checkSolution 2000 2000 secondAttempt))
     = Some 2.
Proof.
  pose proof (scoring_counts_matching_positions
                [cola; grape; lime; water; orange] [lime; cola; grape; water; orange]
                2000 2000 secondAttempt eq_refl eq_refl eq_refl) as (H1 & H2 & _).
  split_and!; [reflexivity..|exact H1|exact H2].
Defined.


(** ** The derived inventory *)

Lemma includes_spec board b : JsArray.includes board b = true <-> Brand b ∈ board.
Proof. unfold JsArray.includes. apply bool_decide_eq_true. Qed.

Lemma availableInventory_spec s brand :
  brand ∈ availableInventory s
  <-> brand ∈ activeBrands s /\ Brand (brand_id brand) ∉ currentSlots s.
Proof.
  unfold availableInventory.
  rewrite list_elem_of_In, filter_In, <- list_elem_of_In.
  rewrite negb_true_iff, <- not_true_iff_false, includes_spec. done.
Qed.

(** ** Moves *)

Lemma executeMove_inventory_slot s x si i :
  wellTyped (currentSlots s) -> i < length (currentSlots s) ->
  currentSlots (executeMove inventory x si slot (Some i) s)
  = <[i := Brand x]> (currentSlots s).
Proof.
  intros Hw Hi. unfold executeMove. simpl.
  rewrite spread_wellTyped by done. by apply set_in_range.
Qed.

Lemma executeMove_slot_slot s x i j c :
  wellTyped (currentSlots s) ->
  i < length (currentSlots s) -> currentSlots s !! j = Some c ->
  currentSlots (executeMove slot x (Some i) slot (Some j) s)
  = <[i := c]> (<[j := Brand x]> (currentSlots s)).
Proof.
  intros Hw Hi Hj. unfold executeMove. simpl.
  rewrite spread_wellTyped by done.
  rewrite (get_wellTyped _ _ c) by done.
  pose proof (lookup_lt_Some _ _ _ Hj).
  rewrite (set_in_range _ j) by done.
  apply set_in_range. by rewrite length_insert.
Qed.

Lemma executeMove_slot_inventory s x i ti :
  wellTyped (currentSlots s) -> i < length (currentSlots s) ->
  currentSlots (executeMove slot x (Some i) inventory ti s)
  = <[i := Null]> (currentSlots s).
Proof.
  intros Hw Hi. unfold executeMove. simpl.
  rewrite spread_wellTyped by done. by apply set_in_range.
Qed.

Lemma executeMove_inventory_inventory s x si ti :
  wellTyped (currentSlots s) ->
  currentSlots (executeMove inventory x si inventory ti s) = currentSlots s.
Proof.
  intros Hw. unfold executeMove. simpl. by apply spread_wellTyped.
Qed.

Lemma executeMove_gameSize source x si tt ti s :
  gameSize (executeMove source x si tt ti s) = gameSize s.
Proof. unfold executeMove. by repeat case_match. Qed.

(** The two gestures hand [executeMove] what they picked up. *)
Lemma drag_gesture_is_move s source brandId index targetIndex :
  gameStatus s = playing ->
  let '(s1, e) := handleDragStart source brandId index s in
  exists dt,
    e = Some dt
    /\ currentSlots (handleDropOnSlot dt targetIndex s1)
       = currentSlots (executeMove source brandId index slot (Some targetIndex) s)
    /\ currentSlots (handleDropOnInventory dt s1)
       = currentSlots (executeMove source brandId index inventory None s).
Proof.
  intros Hs. unfold handleDragStart. rewrite decide_False by by rewrite Hs; auto.
  eexists. split; [done|].
  unfold handleDropOnSlot, handleDropOnInventory. simpl.
  rewrite !decide_False by by rewrite Hs; auto.
  unfold executeMove. simpl. split; by repeat case_match.
Qed.

Lemma touch_gesture_is_move s source brandId index touch targetIndex :
  gameStatus s = playing ->
  let s1 := handleTouchStart source brandId index touch s in
  currentSlots (handleTouchEnd (Element (Some targetIndex) false) s1)
  = currentSlots (executeMove source brandId index slot (Some targetIndex) s)
  /\ currentSlots (handleTouchEnd (Element None true) s1)
     = currentSlots (executeMove source brandId index inventory None s).
Proof.
  intros Hs. unfold handleTouchStart. rewrite decide_False by by rewrite Hs; auto.
  unfold handleTouchEnd, executeMove. simpl. split; by repeat case_match.
Qed.

(** C2, as the program has it.  [executeMove] takes the moved item from the
    descriptor, not from the board.  On a board of its declared type and for
    slot positions [i], [j] of the board it follows the case table when the
    descriptor's source data is the board's: inventory to slot [i] overwrites
    slot [i] with the moved item, an item that came from the inventory is then
    on the board at [i] only, and a displaced occupant is back in the derived
    inventory; slot [i] to slot [j], for the item at [i], exchanges the
    contents of the two slots, and with [j] empty, [i] ends up empty and [j]
    holds the item; slot [i] to inventory clears slot [i]; inventory to
    inventory leaves the board as it is. *)
Theorem executeMove_case_table (s : State) (x : BrandId) (i j : nat) :
  wellTyped (currentSlots s) ->
  i < length (currentSlots s) ->
  j < length (currentSlots s) ->
  let board := currentSlots s in
  (* inventory -> slot[i] *)
  (forall si,
      let board' := currentSlots (executeMove inventory x si slot (Some i) s) in
      board' = <[i := Brand x]> board
      /\ (Brand x ∉ board -> forall k, board' !! k = Some (Brand x) <-> k = i)
      /\ (forall occupant,
            occupant ∈ activeBrands s ->
            board !! i = Some (Brand (brand_id occupant)) ->
            distinctSlots board ->
            Brand x ∉ board ->
            occupant ∈ availableInventory (executeMove inventory x si slot (Some i) s)))
  (* slot[i] -> slot[j], whatever item the descriptor names: slot [j] gets
     that item and slot [i] gets what slot [j] held *)
  /\ (forall c,
        board !! j = Some c ->
        currentSlots (executeMove slot x (Some i) slot (Some j) s)
        = <[i := c]> (<[j := Brand x]> board))
  (* slot[i] -> slot[j] for the item at slot [i] *)
  /\ (board !! i = Some (Brand x) ->
      let board' := currentSlots (executeMove slot x (Some i) slot (Some j) s) in
      length board' = length board
      /\ (forall k, board' !! k
                    = board !! (if decide (k = j) then i
                                else if decide (k = i) then j else k))
      /\ (board !! j = Some Null -> i ≠ j ->
          board' !! i = Some Null /\ board' !! j = Some (Brand x)))
  (* slot[i] -> inventory *)
  /\ (forall ti,
        currentSlots (executeMove slot x (Some i) inventory ti s) = <[i := Null]> board)
  (* inventory -> inventory *)
  /\ (forall si ti,
        currentSlots (executeMove inventory x si inventory ti s) = board).
Proof.
  intros Hw Hi Hj board. split_and!.
  - intros si board'.
    assert (board' = <[i := Brand x]> board) as Hb'
      by by apply executeMove_inventory_slot.
    split_and!; [done| |].
    + intros Hfresh k. rewrite Hb'. split.
      * intros Hk. destruct (decide (k = i)) as [|Hne]; [done|].
        rewrite list_lookup_insert_ne in Hk by done.
        destruct Hfresh. by eapply list_elem_of_lookup_2.
      * intros ->. by apply list_lookup_insert_eq.
    + intros occupant Hact Hocc Hdist Hfresh.
      apply availableInventory_spec. split.
      * unfold activeBrands. by rewrite executeMove_gameSize.
      * fold board'. rewrite Hb'.
        intros (k & Hk)%list_elem_of_lookup_1.
        destruct (decide (k = i)) as [->|Hne].
        -- rewrite list_lookup_insert_eq in Hk by done.
           apply Hfresh. injection Hk as ->. by eapply list_elem_of_lookup_2.
        -- rewrite list_lookup_insert_ne in Hk by done.
           apply Hne. by eapply Hdist.
  - intros c Hc. by apply executeMove_slot_slot.
  - intros Hx board'.
    destruct (lookup_lt_is_Some_2 board j Hj) as [c Hc].
    assert (board' = <[i := c]> (<[j := Brand x]> board)) as Hb'
      by by apply executeMove_slot_slot.
    split_and!.
    + by rewrite Hb', !length_insert.
    + intros k. rewrite Hb'.
      destruct (decide (k = i)) as [->|Hki].
      * rewrite list_lookup_insert_eq by by rewrite length_insert.
        case_decide; by simplify_eq.
      * rewrite list_lookup_insert_ne by done.
        destruct (decide (k = j)) as [->|Hkj].
        -- by rewrite list_lookup_insert_eq.
        -- by rewrite list_lookup_insert_ne.
    + intros Hnull Hij. rewrite Hb'. simplify_eq. split.
      * apply list_lookup_insert_eq. by rewrite length_insert.
      * rewrite list_lookup_insert_ne by done. by apply list_lookup_insert_eq.
  - intros ti. by apply executeMove_slot_inventory.
  - intros si ti. by apply executeMove_inventory_inventory.
Qed.

(** On [cola, null, lime, null, null]: dragging the can of slot 0 onto the
    empty slot 1 gives [null, cola, lime, null, null]. *)
Lemma executeMove_case_table_witness :
  wellTyped (currentSlots partlyFilled)
  /\ 0 < length (currentSlots partlyFilled)
  /\ 1 < length (currentSlots partlyFilled)
  /\ currentSlots partlyFilled !! 0 = Some (Brand cola)
  /\ currentSlots (executeMove slot cola (Some 0) slot (Some 1) partlyFilled) !! 0
     = Some Null
  /\ currentSlots (executeMove slot cola (Some 0) slot (Some 1) partlyFilled) !! 1
     = Some (Brand cola).
Proof.
  assert (wellTyped (currentSlots partlyFilled)) as Hw.
  { unfold wellTyped. simpl.
    repeat (apply List.Forall_cons; [first [by left | right; by eexists]|]).
    apply List.Forall_nil. }
  assert (0 < length (currentSlots partlyFilled)) as H0 by (simpl; lia).
  assert (1 < length (currentSlots partlyFilled)) as H1 by (simpl; lia).
  pose proof (executeMove_case_table partlyFilled cola 0 1 Hw H0 H1)
    as (_ & _ & Hswap & _).
  destruct (Hswap eq_refl) as (_ & _ & Hempty).
  destruct (Hempty eq_refl ltac:(lia)) as [Hi Hj].
  split_and!; [exact Hw|exact H0|exact H1|reflexivity|exact Hi|exact Hj].
Defined.

(** C2, as the claim states it, fails for a descriptor whose source data is
    not the board's.  On [cola, null, lime, null, null], the move slot 0 to
    slot 2 that names grape puts grape, not the cola of slot 0, in slot 2, and
    the move from the inventory to slot 1 that names cola leaves cola in two
    slots.  Such a descriptor reaches [executeMove] when the board changes
    under a gesture in flight: in [staleTouchRelease] slot 0 held grape, the
    release named cola, and grape is gone from the board. *)
Lemma executeMove_stale_descriptor_no_swap :
  gameStatus partlyFilled = playing
  /\ currentSlots partlyFilled = [Brand cola; Null; Brand lime; Null; Null]
  /\ currentSlots (executeMove slot grape (Some 0) slot (Some 2) partlyFilled)
     = [Brand lime; Null; Brand grape; Null; Null]
  /\ currentSlots (executeMove slot grape (Some 0) slot (Some 2) partlyFilled) !! 2
     <> currentSlots partlyFilled !! 0
  /\ currentSlots (executeMove inventory cola None slot (Some 1) partlyFilled)
     = [Brand cola; Brand cola; Brand lime; Null; Null]
  /\ ~ distinctSlots
        (currentSlots (executeMove inventory cola None slot (Some 1) partlyFilled))
  /\ gameStatus staleTouchBefore = playing
  /\ currentSlots staleTouchBefore = [Brand grape; Null; Brand lime; Null; Null]
  /\ touchDragItem staleTouchBefore = Some (mkTouchDragItem slot cola (Some 0))
  /\ currentSlots staleTouchRelease = [Brand lime; Null; Brand cola; Null; Null].
Proof.
  split_and!; try by vm_compute.
  intros Hd. by specialize (Hd 0 1 cola eq_refl eq_refl).
Qed.



(** ** The board invariant *)

Lemma swap_lookup (board : list Slot) i j x c k :
  board !! i = Some x -> board !! j = Some c ->
  <[i := c]> (<[j := x]> board) !! k
  = board !! (if decide (k = j) then i else if decide (k = i) then j else k).
Proof.
  intros Hi Hj.
  pose proof (lookup_lt_Some _ _ _ Hi). pose proof (lookup_lt_Some _ _ _ Hj).
  destruct (decide (k = i)) as [->|Hki].
  - rewrite list_lookup_insert_eq by by rewrite length_insert.
    case_decide; by simplify_eq.
  - rewrite list_lookup_insert_ne by done.
    destruct (decide (k = j)) as [->|Hkj].
    + by rewrite list_lookup_insert_eq.
    + by rewrite list_lookup_insert_ne.
Qed.

Lemma distinctSlots_place board j b :
  distinctSlots board -> Brand b ∉ board -> distinctSlots (<[j := Brand b]> board).
Proof.
  intros Hd Hfresh k1 k2 b' H1 H2.
  destruct (decide (k1 = j)) as [->|Hn1], (decide (k2 = j)) as [->|Hn2]; [done| | |].
  - rewrite list_lookup_insert_ne in H2 by done.
    apply list_lookup_insert_Some in H1 as [(_ & Heq & _)|(? & _)]; [|done].
    simplify_eq. destruct Hfresh. by eapply list_elem_of_lookup_2.
  - rewrite list_lookup_insert_ne in H1 by done.
    apply list_lookup_insert_Some in H2 as [(_ & Heq & _)|(? & _)]; [|done].
    simplify_eq. destruct Hfresh. by eapply list_elem_of_lookup_2.
  - rewrite list_lookup_insert_ne in H1, H2 by done. by eapply Hd.
Qed.

Lemma distinctSlots_clear board i :
  distinctSlots board -> distinctSlots (<[i := Null]> board).
Proof.
  intros Hd k1 k2 b H1 H2.
  apply list_lookup_insert_Some in H1 as [(_ & ? & _)|(_ & H1)]; [done|].
  apply list_lookup_insert_Some in H2 as [(_ & ? & _)|(_ & H2)]; [done|].
  by eapply Hd.
Qed.

Lemma distinctSlots_swap board i j x c :
  distinctSlots board -> board !! i = Some x -> board !! j = Some c ->
  distinctSlots (<[i := c]> (<[j := x]> board)).
Proof.
  intros Hd Hi Hj k1 k2 b H1 H2.
  rewrite (swap_lookup _ _ _ _ _ _ Hi Hj) in H1.
  rewrite (swap_lookup _ _ _ _ _ _ Hi Hj) in H2.
  pose proof (Hd _ _ _ H1 H2) as Heq.
  repeat case_decide; simplify_eq; done.
Qed.

Lemma distinctSlots_replicate n : distinctSlots (replicate n Null).
Proof. intros i j b Hi _. by apply lookup_replicate in Hi as [? _]. Qed.

Lemma indexOf_null_from_Some a :
  forall index k,
    JsArray.indexOf_null_from a index = Some k ->
    index <= k /\ a !! (k - index) = Some Null.
Proof.
  induction a as [|c a IH]; intros index k Hk; simpl in Hk; [done|].
  destruct c; try (apply IH in Hk as [Hle Hk]; split; [lia|];
                   by replace (k - index) with (S (k - S index)) by lia).
  injection Hk as <-. split; [lia|]. by rewrite Nat.sub_diag.
Qed.

Lemma handleInventoryClick_slots b s :
  wellTyped (currentSlots s) ->
  currentSlots (handleInventoryClick b s) = currentSlots s
  \/ exists k, currentSlots (handleInventoryClick b s) = <[k := Brand b]> (currentSlots s).
Proof.
  intros Hw. unfold handleInventoryClick.
  case_decide; [by left|].
  destruct (JsArray.indexOf_null (currentSlots s)) as [k|] eqn:Hk; [|by left].
  right. exists k. simpl. rewrite spread_wellTyped by done.
  apply indexOf_null_from_Some in Hk as [_ Hk]. rewrite Nat.sub_0_r in Hk.
  apply set_in_range. by eapply lookup_lt_Some.
Qed.

Lemma handleSlotClick_slots i s :
  wellTyped (currentSlots s) -> i < length (currentSlots s) ->
  currentSlots (handleSlotClick i s) = currentSlots s
  \/ currentSlots (handleSlotClick i s) = <[i := Null]> (currentSlots s).
Proof.
  intros Hw Hi. unfold handleSlotClick.
  repeat case_decide; try by left.
  right. simpl. rewrite spread_wellTyped by done. by apply set_in_range.
Qed.

Lemma handleInventoryClick_gameSize b s :
  gameSize (handleInventoryClick b s) = gameSize s.
Proof. unfold handleInventoryClick. by repeat (case_decide || case_match). Qed.

Lemma handleSlotClick_gameSize i s : gameSize (handleSlotClick i s) = gameSize s.
Proof. unfold handleSlotClick. by repeat case_decide. Qed.

(** What every reachable state of a game started at [s0] satisfies. *)
Lemma reachable_invariant s0 s :
  freshBoard s0 -> reachable s0 s ->
  gameSize s = gameSize s0
  /\ length (currentSlots s) = gameSize s
  /\ wellTyped (currentSlots s)
  /\ distinctSlots (currentSlots s).
Proof.
  intros Hfresh.
  induction 1 as [|s source x si tt ti Hr IH Hsrc Htgt
                  |s brand Hr IH Hin|s i Hr IH Hi].
  - rewrite Hfresh, length_replicate.
    auto using wellTyped_replicate, distinctSlots_replicate.
  - destruct IH as (Hg & Hlen & Hw & Hd).
    rewrite executeMove_gameSize. split; [done|].
    destruct Hsrc as [brand Hin|i b Hi Hb]; destruct Htgt as [j Hj|].
    + rewrite executeMove_inventory_slot by (done || lia).
      apply availableInventory_spec in Hin as [_ Hnot].
      rewrite length_insert.
      split_and!; [done| |by apply distinctSlots_place].
      apply wellTyped_insert; eauto.
    + by rewrite executeMove_inventory_inventory.
    + destruct (lookup_lt_is_Some_2 (currentSlots s) j) as [c Hc]; [lia|].
      rewrite (executeMove_slot_slot _ _ _ _ c) by (done || lia).
      rewrite !length_insert.
      split_and!; [done| |by apply distinctSlots_swap].
      apply wellTyped_insert; [|by eapply wellTyped_lookup].
      apply wellTyped_insert; eauto.
    + rewrite executeMove_slot_inventory by (done || lia).
      rewrite length_insert.
      split_and!; [done| |by apply distinctSlots_clear].
      apply wellTyped_insert; eauto.
  - destruct IH as (Hg & Hlen & Hw & Hd).
    rewrite handleInventoryClick_gameSize. split; [done|].
    apply availableInventory_spec in Hin as [_ Hnot].
    destruct (handleInventoryClick_slots (brand_id brand) s Hw) as [->|[k ->]];
      [done|].
    rewrite length_insert.
    split_and!; [done| |by apply distinctSlots_place].
    apply wellTyped_insert; eauto.
  - destruct IH as (Hg & Hlen & Hw & Hd).
    rewrite handleSlotClick_gameSize. split; [done|].
    destruct (handleSlotClick_slots i s Hw) as [->| ->]; [lia|done|].
    rewrite length_insert.
    split_and!; [done| |by apply distinctSlots_clear].
    apply wellTyped_insert; eauto.
Qed.

(** C3.  In every state reached by moves from the all-empty board, each move
    as the input adapters supply it, no brand id is in two slots, and the
    derived inventory holds exactly the active brands whose id is in no slot:
    an active brand is either in the inventory and in no slot, or out of the
    inventory and in one slot only. *)
Theorem board_invariant (s0 s : State) :
  freshBoard s0 ->
  reachable s0 s ->
  distinctSlots (currentSlots s)
  /\ (forall brand,
        brand ∈ availableInventory s
        <-> brand ∈ activeBrands s /\ Brand (brand_id brand) ∉ currentSlots s)
  /\ (forall id,
        id ∈ ids (availableInventory s)
        <-> id ∈ ids (activeBrands s) /\ Brand id ∉ currentSlots s)
  /\ (forall brand,
        brand ∈ activeBrands s ->
        (brand ∈ availableInventory s /\ Brand (brand_id brand) ∉ currentSlots s)
        \/ ((brand ∉ availableInventory s)
            /\ (exists i, forall k,
                  currentSlots s !! k = Some (Brand (brand_id brand)) <-> k = i))).
Proof.
  intros Hfresh Hr.
  destruct (reachable_invariant _ _ Hfresh Hr) as (_ & _ & _ & Hd).
  split_and!; [done|apply availableInventory_spec| |].
  - intros id. unfold ids. rewrite !list_elem_of_fmap. split.
    + intros (brand & -> & [Hact Hnot]%availableInventory_spec). eauto.
    + intros [(brand & -> & Hact) Hnot]. exists brand. split; [done|].
      by apply availableInventory_spec.
  - intros brand Hact.
    destruct (decide (Brand (brand_id brand) ∈ currentSlots s)) as [Hin|Hnot].
    + right. split.
      * by intros [_ ?]%availableInventory_spec.
      * apply list_elem_of_lookup_1 in Hin as [i Hi]. exists i. intros k. split.
        -- intros Hk. by eapply Hd.
        -- by intros ->.
    + left. split; [|done]. by apply availableInventory_spec.
Qed.

(** One move into the sample game: cola goes from the inventory to slot 0. *)
Lemma board_invariant_witness :
  freshBoard newGame
  /\ reachable newGame (executeMove inventory cola None slot (Some 0) newGame)
  /\ distinctSlots
       (currentSlots (executeMove inventory cola None slot (Some 0) newGame)).
Proof.
  assert (freshBoard newGame) as Hfresh by reflexivity.
  assert (reachable newGame (executeMove inventory cola None slot (Some 0) newGame))
    as Hreach.
  { apply reach_move; [apply reach_start| |].
    - apply (source_inventory newGame (mkBrand cola "经典可乐" "#e11d48" "#f43f5e" "#ffffff" "可乐")).
      apply list_elem_of_In. simpl. by left.
    - apply target_slot. simpl. lia. }
  pose proof (board_invariant _ _ Hfresh Hreach) as (Hd & _).
  split_and!; [exact Hfresh|exact Hreach|exact Hd].
Defined.


(** ** The target sequence *)

Lemma initGame_freshBoard jsSort now random size s :
  size <= length BRANDS ->
  freshBoard (initGame jsSort now random size (setGameSize size s)).
Proof.
  intros Hsize. unfold freshBoard, initGame.
  rewrite Nat.min_l by done. reflexivity.
Qed.

Lemma BRANDS_ids_NoDup : NoDup (ids BRANDS).
Proof. apply (bool_decide_unpack _). by vm_compute. Qed.

Lemma BRANDS_length : length BRANDS = 10.
Proof. reflexivity. Qed.

Lemma initGame_targetSequence jsSort now random size s :
  targetSequence (initGame jsSort now random size s)
  = brand_id <$> jsSort SodaBrand (fun k _ _ => random k)
                   (take (Nat.min size (length BRANDS)) BRANDS).
Proof. reflexivity. Qed.

(** C4.  Whatever the comparison function answers, [initGame] for a size [n],
    clamped to the catalog length, sets a target of length [n] that is a
    rearrangement of the ids of the first [n] catalog brands: every one of
    them once, none twice. *)
Theorem initGame_target_is_permutation
    (jsSort : forall A : Type, (nat -> A -> A -> Z) -> list A -> list A)
    (now : nat) (random : nat -> Z) (size : nat) (s : State) :
  SortContract jsSort ->
  let n := Nat.min size (length BRANDS) in
  let target := targetSequence (initGame jsSort now random size s) in
  length target = n
  /\ target ≡ₚ ids (take n BRANDS)
  /\ NoDup target
  /\ (forall id, id ∈ target <-> id ∈ ids (take n BRANDS)).
Proof.
  intros Hsort n target.
  assert (target ≡ₚ ids (take n BRANDS)) as Hperm.
  { unfold target. rewrite initGame_targetSequence. unfold ids.
    apply fmap_Permutation, (sort_permutation _ Hsort). }
  split_and!; [|done| |].
  - rewrite Hperm. unfold ids. rewrite length_fmap, length_take. fold n.
    unfold n. lia.
  - rewrite Hperm. unfold ids. rewrite fmap_take.
    eapply sublist_NoDup; [apply BRANDS_ids_NoDup|apply sublist_take].
  - intros id. by rewrite Hperm.
Qed.

(** With the insertion sort as the engine's sort and the comparison function
    answering by turns, a game of size 5 gets a target with 5 distinct ids. *)
Lemma initGame_target_is_permutation_witness :
  SortContract InsertionSort.sort
  /\ (let target :=
        targetSequence
          (initGame InsertionSort.sort 1000
             (fun k => if Nat.even k then 1%Z else (-1)%Z) 5 newGame) in
      length target = 5
      /\ target ≡ₚ [cola; lime; orange; grape; water]
      /\ NoDup target).
Proof.
  pose proof (initGame_target_is_permutation InsertionSort.sort 1000
                (fun k => if Nat.even k then 1%Z else (-1)%Z) 5 newGame
                insertion_sort_contract) as (Hlen & Hperm & Hnodup & _).
  split; [exact insertion_sort_contract|].
  split_and!; [exact Hlen|exact Hperm|exact Hnodup].
Defined.


(** ** Progression *)

Lemma checkSolution_maxUnlockedLevel nowId nowStamp s :
  maxUnlockedLevel (checkSolution nowId nowStamp s)
  = if decide (winningConfirm s
               /\ gameSize s = maxUnlockedLevel s /\ gameSize s < length BRANDS)
    then maxUnlockedLevel s + 1 else maxUnlockedLevel s.
Proof.
  unfold checkSolution, winningConfirm.
  destruct (JsArray.some _ (currentSlots s)) eqn:Hsome.
  - rewrite decide_False; [done|]. by intros [[? _] _].
  - destruct (decide (correctCount (currentSlots s) (targetSequence s) = gameSize s))
      as [Hwin|Hlose].
    + destruct (decide (gameSize s = maxUnlockedLevel s /\ gameSize s < length BRANDS))
        as [Hcond|Hcond]; simpl.
      * rewrite decide_True by done. lia.
      * rewrite decide_False; [done|]. by intros [_ ?].
    + rewrite decide_False; [done|]. by intros [[_ ?] _].
Qed.

Lemma executeMove_maxUnlockedLevel source x si tt ti s :
  maxUnlockedLevel (executeMove source x si tt ti s) = maxUnlockedLevel s.
Proof. unfold executeMove. by repeat case_match. Qed.

(** Only [checkSolution] touches the unlocked level. *)
Lemma step_maxUnlockedLevel jsSort s op :
  (forall nowId nowStamp, op ≠ CheckSolution nowId nowStamp) ->
  maxUnlockedLevel (step jsSort s op) = maxUnlockedLevel s.
Proof.
  intros Hop. destruct op; simpl;
    unfold handleDragStart, handleDropOnSlot, handleDropOnInventory,
      handleTouchStart, handleTouchMove, handleTouchEnd, handleInventoryClick,
      handleSlotClick, winTimeout, handleNextLevel, handleRetryLevel,
      handleSelectLevel, nextUnlockedLevel, timerTick, timerEffect,
      toggleHistory, closeHistory, openRecords, closeRecords, openLevelMenu,
      closeLevelMenu, closeWinModal, openInstructions, closeInstructions;
    repeat (case_decide || case_match);
    rewrite ?executeMove_maxUnlockedLevel; try reflexivity.
  by destruct (Hop nowId nowStamp).
Qed.

Lemma Op_confirm_or_other (op : Op) :
  (exists t1 t2, op = CheckSolution t1 t2) \/ (forall t1 t2, op ≠ CheckSolution t1 t2).
Proof. destruct op; (by left; eauto) || (by right). Qed.

Lemma step_monotone jsSort s op :
  maxUnlockedLevel s <= maxUnlockedLevel (step jsSort s op).
Proof.
  destruct (Op_confirm_or_other op) as [(nowId & nowStamp & ->)|Hother].
  - simpl. rewrite checkSolution_maxUnlockedLevel. case_decide; lia.
  - by rewrite step_maxUnlockedLevel.
Qed.

Lemma run_monotone jsSort ops :
  forall s, maxUnlockedLevel s <= maxUnlockedLevel (run jsSort s ops).
Proof.
  unfold run. induction ops as [|op ops IH]; intros s; simpl; [done|].
  etrans; [apply (step_monotone jsSort s op)|apply IH].
Qed.

(** C5.  The unlocked level never goes down over any sequence of operations
    of a running game.  A single operation leaves it as it is or raises it by
    exactly 1, the latter only for a winning confirm.  A winning confirm
    raises it (by 1) exactly when the difficulty is the unlocked level and
    below the catalog size; a win below the frontier leaves it unchanged. *)
Theorem unlock_monotone_and_rule
    (jsSort : forall A : Type, (nat -> A -> A -> Z) -> list A -> list A)
    (s : State) (ops : list Op) (op : Op) (nowId nowStamp : nat) :
  maxUnlockedLevel s <= maxUnlockedLevel (run jsSort s ops)
  /\ (maxUnlockedLevel (step jsSort s op) = maxUnlockedLevel s
      \/ (maxUnlockedLevel (step jsSort s op) = maxUnlockedLevel s + 1
          /\ (exists t1 t2, op = CheckSolution t1 t2) /\ winningConfirm s))
  /\ (winningConfirm s ->
      let s' := checkSolution nowId nowStamp s in
      (maxUnlockedLevel s' = maxUnlockedLevel s + 1
       <-> gameSize s = maxUnlockedLevel s /\ maxUnlockedLevel s < length BRANDS)
      /\ (maxUnlockedLevel s < maxUnlockedLevel s'
          <-> gameSize s = maxUnlockedLevel s /\ maxUnlockedLevel s < length BRANDS)
      /\ (gameSize s < maxUnlockedLevel s -> maxUnlockedLevel s' = maxUnlockedLevel s)).
Proof.
  split_and!.
  - apply run_monotone.
  - destruct (Op_confirm_or_other op) as [(t1 & t2 & ->)|Hother].
    + simpl. rewrite checkSolution_maxUnlockedLevel.
      case_decide as Hc; [right|by left].
      split_and!; [done|by eauto|by destruct Hc].
    + left. by apply step_maxUnlockedLevel.
  - intros Hwin s'. unfold s'. rewrite checkSolution_maxUnlockedLevel.
    case_decide as Hc.
    + destruct Hc as (_ & Heq & Hlt). split_and!; [split; [|done]|split; [|lia]|lia].
      * intros _. split; [done|]. by rewrite <- Heq.
      * intros _. split; [done|]. by rewrite <- Heq.
    + split_and!; [split; [lia|]|split; [lia|]|done].
      * intros [Heq Hlt]. destruct Hc. split_and!; [done..|]. by rewrite Heq.
      * intros [Heq Hlt]. destruct Hc. split_and!; [done..|]. by rewrite Heq.
Qed.

(** A win at difficulty 5 with level 5 unlocked unlocks level 6. *)
Lemma unlock_monotone_and_rule_witness :
  winningConfirm solved
  /\ maxUnlockedLevel solved = 5
  /\ maxUnlockedLevel (checkSolution 2000 2000 solved) = 6.
Proof.
  assert (winningConfirm solved) as Hwin by (split; reflexivity).
  pose proof (unlock_monotone_and_rule InsertionSort.sort solved []
                (CheckSolution 2000 2000) 2000 2000) as (_ & _ & Hrule).
  destruct (Hrule Hwin) as (Hiff & _).
  split_and!; [exact Hwin|reflexivity|].
  apply Hiff. split; [reflexivity|]. simpl. lia.
Defined.


(** ** The history log *)

Lemma historyRows_lookup (h : list HistoryEntry) idx :
  historyRows h !! idx = (fun entry => (entry, length h - 1 - idx)) <$> h !! idx.
Proof. unfold historyRows. by rewrite list_lookup_imap. Qed.

Lemma historyRows_entries (h : list HistoryEntry) : (historyRows h).*1 = h.
Proof.
  apply list_eq. intros idx.
  rewrite list_lookup_fmap, historyRows_lookup. by destruct (h !! idx).
Qed.

(** C6, as the program has it.  A confirm on a full board puts the new entry
    at the front of the stored log and leaves the earlier entries behind it as
    they were, so the stored order is newest first.  The history panel shows
    the entries in that stored order and labels row [idx] with
    [length - 1 - idx]: the newest entry comes first with the highest
    number. *)
Theorem history_prepends_newest_first (s : State) (nowId nowStamp : nat) :
  Null ∉ currentSlots s ->
  let s' := checkSolution nowId nowStamp s in
  history s'
  = mkEntry (JsArray.toString nowId) (JsArray.spread (currentSlots s))
            (correctCount (currentSlots s) (targetSequence s)) nowStamp
    :: history s
  /\ length (history s') = S (length (history s))
  /\ (historyRows (history s')).*1 = history s'
  /\ (forall idx entry,
        history s' !! idx = Some entry ->
        historyRows (history s') !! idx = Some (entry, length (history s) - idx)).
Proof.
  intros Hfull s'.
  assert (JsArray.some (fun c => bool_decide (c = Null)) (currentSlots s) = false)
    as Hsome by (apply not_true_is_false; by rewrite some_null_spec).
  assert (history s' = mkEntry (JsArray.toString nowId) (JsArray.spread (currentSlots s))
            (correctCount (currentSlots s) (targetSequence s)) nowStamp
          :: history s) as Hh by by apply checkSolution_full.
  split_and!; [done|by rewrite Hh|apply historyRows_entries|].
  intros idx entry Hidx. rewrite historyRows_lookup, Hidx, Hh. simpl.
  do 2 f_equal. lia.
Qed.

(** The second confirm of the sample game: its entry is the head of the log,
    shown first and numbered 2 (index 1) by the panel. *)
Lemma history_prepends_newest_first_witness :
  (Null ∉ currentSlots secondAttempt)
  /\ history (checkSolution 2000 2000 secondAttempt)
     = [ mkEntry "2000" (Brand <$> [cola; grape; lime; water; orange]) 2 2000;
         firstAttempt ]
  /\ historyRows (history (checkSolution 2000 2000 secondAttempt)) !! 0
     = Some (mkEntry "2000" (Brand <$> [cola; grape; lime; water; orange]) 2 2000, 1).
Proof.
  assert (Null ∉ currentSlots secondAttempt) as Hfull.
  { intros Hin. apply some_null_spec in Hin. discriminate Hin. }
  pose proof (history_prepends_newest_first secondAttempt 2000 2000 Hfull)
    as (Hh & _ & _ & Hrows).
  split_and!; [exact Hfull|exact Hh|].
  exact (Hrows 0 _ eq_refl).
Defined.


(** C6, as the claim states it, fails: after a second confirm the new entry
    is not at the end of the stored log, and the panel's order is not the
    reverse of the stored order. *)
Lemma history_not_appended_at_end :
  let s' := checkSolution 2000 2000 secondAttempt in
  history s' <> history secondAttempt
                ++ [mkEntry "2000" (Brand <$> [cola; grape; lime; water; orange]) 2 2000]
  /\ (forall entry, history s' <> history secondAttempt ++ [entry])
  /\ (historyRows (history s')).*1 <> reverse (history s').
Proof.
  split_and!.
  - vm_compute. discriminate.
  - intros entry. vm_compute. intros H. discriminate.
  - vm_compute. discriminate.
Qed.

(** ** The records ranking *)

Lemma compareRecords_le a b : (compareRecords a b <= 0)%Z <-> ranksBefore a b.
Proof. unfold compareRecords, ranksBefore. repeat case_decide; lia. Qed.

Lemma compareRecords_consistent : Consistent compareRecords.
Proof.
  split.
  - intros a. unfold compareRecords. repeat case_decide; lia.
  - intros a b. unfold compareRecords. repeat case_decide; lia.
  - intros a b c. rewrite !compareRecords_le. unfold ranksBefore. lia.
Qed.

Lemma StronglySorted_ranksBefore (l : list GameRecord) :
  StronglySorted (fun a b => (compareRecords a b <= 0)%Z) l ->
  StronglySorted ranksBefore l.
Proof.
  induction 1 as [|a l _ IH Hall]; constructor; [done|].
  eapply Forall_impl; [exact Hall|]. intros b. apply compareRecords_le.
Qed.

Lemma winTimeout_records nowId nowStamp s t pending :
  timers s = t :: pending ->
  records (winTimeout nowId nowStamp s)
  = timer_records t
    ++ [mkRecord (JsArray.toString nowId) nowStamp (timer_attempts t)
                 (timer_elapsedTime t) (timer_gameSize t)
                 (Some (timer_targetSequence t))].
Proof. intros Ht. unfold winTimeout. by rewrite Ht. Qed.

(** C7.  With the stored records array at [recordsRef], [sortedRecords] is a
    new array: a rearrangement of the stored records ranked by difficulty
    descending, then attempts ascending, then duration ascending.  The stored
    array, like every other array, is what it was.  The stored array itself
    grows at its end: the win callback that follows a confirm (no other one
    pending) sets it to the records so far followed by the new record. *)
Theorem sortedRecords_is_ranked_copy
    (jsSort : forall A : Type, (nat -> A -> A -> Z) -> list A -> list A)
    (h : Heap) (recordsRef : nat) (stored : list GameRecord) :
  SortContract jsSort ->
  h !! recordsRef = Some stored ->
  let view := (sortedRecords jsSort recordsRef h).1 in
  let h' := (sortedRecords jsSort recordsRef h).2 in
  view ≠ recordsRef
  /\ h' !! recordsRef = Some stored
  /\ (forall a, a ≠ view -> h' !! a = h !! a)
  /\ (exists sorted,
        h' !! view = Some sorted
        /\ sorted ≡ₚ stored
        /\ StronglySorted ranksBefore sorted)
  /\ (forall s nowId nowStamp t1 t2,
        records s = stored -> timers s = [] -> winningConfirm s ->
        exists newRecord,
          records (winTimeout t1 t2 (checkSolution nowId nowStamp s))
          = stored ++ [newRecord]).
Proof.
  intros Hsort Hstored view h'.
  unfold sortedRecords, spreadRecords, sortInPlace in view, h'; simpl in view, h'.
  assert (h !! view = None) as Hfresh.
  { apply not_elem_of_dom. apply is_fresh. }
  assert (view ≠ recordsRef) as Hne by (intros Heq; congruence).
  split_and!.
  - done.
  - unfold h'. rewrite lookup_alter_ne by done.
    fold view. by rewrite lookup_insert_ne.
  - intros a Ha. unfold h'. rewrite lookup_alter_ne by done.
    fold view. by rewrite lookup_insert_ne.
  - exists (jsSort GameRecord (fun _ => compareRecords) stored). split_and!.
    + unfold h'. rewrite lookup_alter_eq. fold view.
      by rewrite lookup_insert_eq, Hstored.
    + apply (sort_permutation _ Hsort).
    + apply StronglySorted_ranksBefore, (sort_sorted _ Hsort).
      apply compareRecords_consistent.
  - intros s nowId nowStamp t1 t2 Hrec Htim [Hfull Hwin].
    eexists. erewrite winTimeout_records.
    2:{ unfold checkSolution. rewrite Hfull, decide_True by done.
        case_decide; simpl; by rewrite Htim. }
    simpl. by rewrite Hrec.
Qed.

(** Three stored records, ranked with the insertion sort: the size-6 win
    first, then the two size-5 wins with 4 attempts, the faster one first.
    The stored array keeps its order. *)
Lemma sortedRecords_is_ranked_copy_witness :
  SortContract InsertionSort.sort
  /\ ({[ 0 := sampleRecords ]} : Heap) !! 0 = Some sampleRecords
  /\ (sortedRecords InsertionSort.sort 0 {[ 0 := sampleRecords ]}).1 ≠ 0
  /\ (sortedRecords InsertionSort.sort 0 {[ 0 := sampleRecords ]}).2 !! 0
     = Some sampleRecords.
Proof.
  assert (({[ 0 := sampleRecords ]} : Heap) !! 0 = Some sampleRecords) as Hstored
    by reflexivity.
  pose proof (sortedRecords_is_ranked_copy InsertionSort.sort _ 0 sampleRecords
                insertion_sort_contract Hstored) as (Hne & Hkept & _).
  split_and!; [exact insertion_sort_contract|exact Hstored|exact Hne|exact Hkept].
Defined.


(** ** Confirm on an incomplete board *)

(** C8.  With an empty slot on the board the confirm button is disabled, and
    a confirm request changes nothing at all: no entry, no sound, no timer,
    the same status, records and unlocked level. *)
Theorem confirm_ignored_on_incomplete_board (s : State) (nowId nowStamp : nat) :
  Null ∈ currentSlots s ->
  confirmDisabled s = true
  /\ checkSolution nowId nowStamp s = s.
Proof.
  intros Hnull. apply some_null_spec in Hnull.
  split; [done|]. unfold checkSolution. by rewrite Hnull.
Qed.

(** The board [cola, null, lime, null, null] cannot be confirmed. *)
Lemma confirm_ignored_on_incomplete_board_witness :
  Null ∈ currentSlots partlyFilled
  /\ confirmDisabled partlyFilled = true
  /\ checkSolution 2000 2000 partlyFilled = partlyFilled.
Proof.
  assert (Null ∈ currentSlots partlyFilled) as Hnull.
  { apply list_elem_of_In. simpl. auto. }
  pose proof (confirm_ignored_on_incomplete_board partlyFilled 2000 2000 Hnull)
    as (Hdisabled & Hsame).
  split_and!; [exact Hnull|exact Hdisabled|exact Hsame].
Defined.


(** ** Moves while the game is not being played *)

Lemma drop_ignored_unless_playing s e targetIndex :
  gameStatus s ≠ playing ->
  handleDropOnSlot e targetIndex s = s /\ handleDropOnInventory e s = s.
Proof.
  intros Hs. unfold handleDropOnSlot, handleDropOnInventory.
  by rewrite !decide_True.
Qed.

Lemma touchStart_ignored_unless_playing s source brandId index touch :
  gameStatus s ≠ playing ->
  handleTouchStart source brandId index touch s = s.
Proof. intros Hs. unfold handleTouchStart. by rewrite decide_True. Qed.

(** The release of a touch is not gated: with a touch held on the occupied
    slot [i], lifting it over a slot [j] that holds something else changes
    the board whatever the game status is. *)
Lemma touch_release_not_gated s b i j pos c :
  touchDragItem s = Some (mkTouchDragItem slot b (Some i)) ->
  touchDragPos s = Some pos ->
  wellTyped (currentSlots s) ->
  currentSlots s !! i = Some (Brand b) ->
  currentSlots s !! j = Some c ->
  c ≠ Brand b ->
  currentSlots (handleTouchEnd (Element (Some j) false) s) ≠ currentSlots s.
Proof.
  intros Hitem Hpos Hw Hi Hj Hne Heq.
  unfold handleTouchEnd in Heq. rewrite Hitem, Hpos in Heq. simpl in Heq.
  pose proof (lookup_lt_Some _ _ _ Hi) as Hlt.
  pose proof (executeMove_slot_slot
                (setTouchDragPos None (setTouchDragItem None s)) b i j c Hw Hlt Hj)
    as Hmove.
  simpl in Hmove. rewrite Hmove in Heq.
  assert (<[i := c]> (<[j := Brand b]> (currentSlots s)) !! i = Some c) as Hc.
  { apply list_lookup_insert_eq. by rewrite length_insert. }
  rewrite Heq, Hi in Hc. congruence.
Qed.

(** C9 fails on the touch path.  The drop handlers look at the game status
    when the move arrives, and ignore it unless the game is being played.
    [handleTouchEnd] does not: only [handleTouchStart] looks at the status.
    In [wonWithTouchHeld] the game is won and a touch that began during play
    is still held; its release over slot 1 exchanges slots 0 and 1, and its
    release over the inventory tray empties slot 0. *)
Theorem touch_release_moves_after_win :
  gameStatus wonWithTouchHeld = won
  /\ currentSlots wonWithTouchHeld = Brand <$> [lime; cola; grape; water; orange]
  /\ touchDragItem wonWithTouchHeld = Some (mkTouchDragItem slot lime (Some 0))
  /\ (forall e targetIndex,
        handleDropOnSlot e targetIndex wonWithTouchHeld = wonWithTouchHeld
        /\ handleDropOnInventory e wonWithTouchHeld = wonWithTouchHeld)
  /\ currentSlots (handleTouchEnd (Element (Some 1) false) wonWithTouchHeld)
     = Brand <$> [cola; lime; grape; water; orange]
  /\ currentSlots (handleTouchEnd (Element None true) wonWithTouchHeld)
     = [Null; Brand cola; Brand grape; Brand water; Brand orange].
Proof.
  split_and!; try by vm_compute.
Qed.

(** ** What a move leaves alone *)

(** C10.  Whatever the move, [executeMove] leaves the target sequence, the
    history, the game status, the records, the difficulty size and the
    unlocked level as they were; so it does the timer, the dialogs, the touch
    state and the pending callbacks. *)
Theorem executeMove_frame
    (source : Zone) (sourceBrandId : BrandId) (sourceIndex : option nat)
    (targetType : Zone) (targetIndex : option nat) (s : State) :
  let s' := executeMove source sourceBrandId sourceIndex targetType targetIndex s in
  targetSequence s' = targetSequence s
  /\ history s' = history s
  /\ gameStatus s' = gameStatus s
  /\ records s' = records s
  /\ gameSize s' = gameSize s
  /\ maxUnlockedLevel s' = maxUnlockedLevel s
  /\ (startTime s', elapsedTime s') = (startTime s, elapsedTime s)
  /\ (showInstructions s', showHistory s', showRecords s')
     = (showInstructions s, showHistory s, showRecords s)
  /\ (showWinModal s', showLevelMenu s') = (showWinModal s, showLevelMenu s)
  /\ (touchDragItem s', touchDragPos s') = (touchDragItem s, touchDragPos s)
  /\ timers s' = timers s.
Proof.
  unfold executeMove. by repeat case_match.
Qed.

(** * More properties of the component *)

(** ** Decimal renderings read back *)

Ltac eval_char_tests :=
  repeat match goal with
  | |- context [isWhiteSpace ?c] =>
      let v := eval vm_compute in (isWhiteSpace c) in
      change (isWhiteSpace c) with v; cbv iota
  | |- context [digitValue ?c] =>
      let v := eval vm_compute in (digitValue c) in
      change (digitValue c) with v; cbv iota
  end.

Lemma parseDigits_string_of_uint (d : Decimal.uint) :
  forall acc, parseDigits (NilEmpty.string_of_uint d) acc = Nat.of_uint_acc d acc.
Proof.
  induction d; intros acc; [reflexivity|..];
    cbn [NilEmpty.string_of_uint parseDigits Nat.of_uint_acc]; eval_char_tests;
    rewrite IHd, Nat.tail_mul_spec; f_equal; lia.
Qed.

Lemma parseInt_string_of_uint (d : Decimal.uint) :
  d <> Decimal.Nil ->
  parseInt (NilEmpty.string_of_uint d) = Num (Z.of_nat (Nat.of_uint d)).
Proof.
  intros Hd. unfold Nat.of_uint. rewrite <- parseDigits_string_of_uint.
  destruct d; [done|..]; unfold parseInt;
    cbn [NilEmpty.string_of_uint skipWhiteSpace]; eval_char_tests; reflexivity.
Qed.

Lemma toString_not_empty (n : nat) : JsArray.toString n <> "".
Proof. unfold JsArray.toString. by destruct (Nat.to_uint n). Qed.

Lemma parseInt_toString (n : nat) : parseInt (JsArray.toString n) = Num (Z.of_nat n).
Proof.
  pose proof (Unsigned.of_to n) as Hn.
  unfold JsArray.toString, NilZero.string_of_uint.
  destruct (Nat.to_uint n) eqn:Hd;
    [by rewrite <- Hn|..]; rewrite parseInt_string_of_uint by done; by rewrite Hn.
Qed.

(** X1.  The slot index of a drag survives the trip through the drag data:
    written as [index.toString()], read back with [raw ? parseInt(raw, 10) :
    undefined], it is the same number, index 0 included (["0"] is not an
    empty string), and a drag without an index reads back as [undefined]. *)
Theorem drag_index_round_trip (index : option nat) :
  sourceIndexOf (indexData index) = (fun i => Num (Z.of_nat i)) <$> index.
Proof.
  destruct index as [i|]; [|reflexivity].
  unfold sourceIndexOf, indexData.
  rewrite decide_False by apply toString_not_empty.
  simpl. by rewrite parseInt_toString.
Qed.

(** ** The clock text *)

Lemma append_uint_colon_inj (d1 d2 : Decimal.uint) (r1 r2 : string) :
  String.append (NilEmpty.string_of_uint d1) (String ":" r1)
  = String.append (NilEmpty.string_of_uint d2) (String ":" r2) ->
  d1 = d2 /\ r1 = r2.
Proof.
  revert d2. induction d1; intros []; simpl; intros H;
    try discriminate H; try (injection H as H; by split);
    injection H as H; apply IHd1 in H as [-> ->]; by split.
Qed.

Lemma toString_colon_inj (m1 m2 : nat) (r1 r2 : string) :
  String.append (JsArray.toString m1) (String ":" r1)
  = String.append (JsArray.toString m2) (String ":" r2) ->
  m1 = m2 /\ r1 = r2.
Proof.
  unfold JsArray.toString. intros H.
  assert (forall d, NilZero.string_of_uint d
                    = NilEmpty.string_of_uint
                        (match d with Decimal.Nil => Decimal.D0 Decimal.Nil | _ => d end))
    as Hz by by intros [].
  rewrite !Hz in H. apply append_uint_colon_inj in H as [Hd ->]. split; [|done].
  rewrite <- (Unsigned.of_to m1), <- (Unsigned.of_to m2).
  destruct (Nat.to_uint m1), (Nat.to_uint m2); by simplify_eq.
Qed.

Lemma two_digit_seconds (k : nat) :
  k < 60 ->
  String.length (padStart 2 "0" (JsArray.toString k)) = 2
  /\ parseInt (padStart 2 "0" (JsArray.toString k)) = Num (Z.of_nat k).
Proof.
  intros Hk. do 60 (destruct k as [|k]; [by vm_compute|]). lia.
Qed.

(** X2.  [formatTime] writes the minutes in decimal, a colon, and exactly two
    digits of seconds; both fields read back as the minutes and the seconds
    of the duration, and two different durations never give the same text. *)
Theorem formatTime_reads_back (seconds : nat) :
  (exists ss,
      formatTime seconds
      = String.append (JsArray.toString (seconds / 60)) (String ":" ss)
      /\ String.length ss = 2
      /\ parseInt ss = Num (Z.of_nat (seconds mod 60))
      /\ parseInt (JsArray.toString (seconds / 60)) = Num (Z.of_nat (seconds / 60)))
  /\ (forall other, formatTime seconds = formatTime other -> seconds = other).
Proof.
  assert (forall n, n mod 60 < 60) as Hmod by (intros n; apply Nat.mod_upper_bound; lia).
  split.
  - exists (padStart 2 "0" (JsArray.toString (seconds mod 60))).
    destruct (two_digit_seconds (seconds mod 60) (Hmod _)) as [Hlen Hparse].
    split_and!; [done|done|done|apply parseInt_toString].
  - intros other H. unfold formatTime in H. cbv zeta in H.
    change (String.append ":" ?x) with (String ":"%char x) in H.
    apply toString_colon_inj in H as [Hm Hs].
    destruct (two_digit_seconds (seconds mod 60) (Hmod _)) as [_ H1].
    destruct (two_digit_seconds (other mod 60) (Hmod _)) as [_ H2].
    rewrite Hs, H2 in H1.
    assert (Z.of_nat (other mod 60) = Z.of_nat (seconds mod 60)) by congruence.
    pose proof (Nat.div_mod_eq seconds 60). pose proof (Nat.div_mod_eq other 60).
    lia.
Qed.

(** ** What each operation can change *)

Ltac unfold_handlers :=
  unfold handleDragStart, handleDropOnSlot, handleDropOnInventory,
    handleTouchStart, handleTouchMove, handleTouchEnd, handleInventoryClick,
    handleSlotClick, checkSolution, winTimeout, handleNextLevel,
    handleRetryLevel, handleSelectLevel, nextUnlockedLevel, initGame,
    timerTick, timerEffect, toggleHistory, closeHistory, openRecords,
    closeRecords, openLevelMenu, closeLevelMenu, closeWinModal,
    openInstructions, closeInstructions, setTimeout.

Lemma executeMove_history source x si tt ti s :
  history (executeMove source x si tt ti s) = history s.
Proof. unfold executeMove. by repeat case_match. Qed.

Lemma executeMove_gameStatus source x si tt ti s :
  gameStatus (executeMove source x si tt ti s) = gameStatus s.
Proof. unfold executeMove. by repeat case_match. Qed.

Lemma executeMove_timers source x si tt ti s :
  timers (executeMove source x si tt ti s) = timers s.
Proof. unfold executeMove. by repeat case_match. Qed.

Lemma executeMove_records source x si tt ti s :
  records (executeMove source x si tt ti s) = records s.
Proof. unfold executeMove. by repeat case_match. Qed.

Ltac step_cases op :=
  destruct op; try discriminate; simpl; unfold_handlers;
  repeat (case_decide || case_match);
  rewrite ?executeMove_history, ?executeMove_gameStatus, ?executeMove_timers,
    ?executeMove_records; simpl.

Lemma step_timers jsSort s op :
  isConfirm op = false -> isWinTimeout op = false ->
  timers (step jsSort s op) = timers s.
Proof. intros Hc Hw. step_cases op; congruence. Qed.

Lemma step_records jsSort s op :
  isWinTimeout op = false -> records (step jsSort s op) = records s.
Proof. intros Hw. step_cases op; congruence. Qed.

Lemma step_gameSize jsSort s op :
  startsGame op = false -> gameSize (step jsSort s op) = gameSize s.
Proof.
  intros Hs. destruct op; try discriminate; simpl; unfold_handlers;
    repeat (case_decide || case_match);
    rewrite ?executeMove_gameSize; simpl; done.
Qed.

Lemma step_history jsSort s op :
  startsGame op = false ->
  history (step jsSort s op) = history s
  \/ (isConfirm op = true /\ exists entry, history (step jsSort s op) = entry :: history s).
Proof.
  intros Hs. step_cases op; try (left; congruence); right; eauto.
Qed.

Lemma step_gameStatus jsSort s op :
  gameStatus (step jsSort s op) = gameStatus s
  \/ (isWinTimeout op = true /\ timers s <> [] /\ gameStatus (step jsSort s op) = won)
  \/ (startsGame op = true /\ gameStatus (step jsSort s op) = playing).
Proof.
  step_cases op; try (left; congruence); try (right; right; by split);
    right; left; split_and!; congruence.
Qed.

Lemma step_board_frozen jsSort s op :
  gameStatus s <> playing -> startsGame op = false -> isTouchEnd op = false ->
  currentSlots (step jsSort s op) = currentSlots s.
Proof.
  intros Hs Hstart Htouch.
  destruct op; try discriminate; simpl; unfold_handlers;
    repeat (case_decide || case_match); simpl; done.
Qed.

(** ** The unlocked level and its stored copy *)

Lemma step_maxUnlocked_bounded jsSort s op :
  maxUnlockedLevel s <= length BRANDS ->
  maxUnlockedLevel (step jsSort s op) <= length BRANDS.
Proof.
  intros Hs. destruct (Op_confirm_or_other op) as [(t1 & t2 & ->)|Hother].
  - simpl. rewrite checkSolution_maxUnlockedLevel.
    case_decide as Hc; [|done]. destruct Hc as (_ & <- & Hlt).
    rewrite BRANDS_length in *. lia.
  - by rewrite step_maxUnlockedLevel.
Qed.

(** X3.  The unlocked level never exceeds the catalog size: the mount effect
    clamps what it reads from storage, and from a level within the catalog no
    sequence of operations leads above it. *)
Theorem unlocked_level_within_catalog
    (jsSort : forall A : Type, (nat -> A -> A -> Z) -> list A -> list A)
    (s : State) (ops : list Op) (savedMaxLevel : option string) :
  maxUnlockedLevel s <= length BRANDS ->
  maxUnlockedLevel (run jsSort s ops) <= length BRANDS
  /\ (forall level,
        mountMaxLevel savedMaxLevel = Some level ->
        (level <= Z.of_nat (length BRANDS))%Z).
Proof.
  intros Hs. split.
  - revert s Hs. unfold run.
    induction ops as [|op ops IH]; intros s Hs; simpl; [done|].
    apply IH. by apply step_maxUnlocked_bounded.
  - intros level. unfold mountMaxLevel.
    destruct savedMaxLevel as [str|]; [|done]. case_decide; [done|].
    destruct (parseInt str); [|done]. intros [= <-]. apply Z.le_min_r.
Qed.

Lemma unlocked_level_within_catalog_witness :
  maxUnlockedLevel solved <= length BRANDS
  /\ maxUnlockedLevel
       (run InsertionSort.sort solved [CheckSolution 2000 2000; WinTimeout 2500 2500])
     <= length BRANDS
  /\ (forall level, mountMaxLevel (Some "12") = Some level ->
                    (level <= Z.of_nat (length BRANDS))%Z).
Proof.
  assert (maxUnlockedLevel solved <= length BRANDS) as Hs by (simpl; lia).
  pose proof (unlocked_level_within_catalog InsertionSort.sort solved
                [CheckSolution 2000 2000; WinTimeout 2500 2500] (Some "12") Hs)
    as [Hrun Hmount].
  split_and!; [exact Hs|exact Hrun|exact Hmount].
Defined.

(** X4.  What a winning confirm writes to storage is what a later start reads
    back: when [checkSolution] stores a level, the mount effect applied to
    the stored string gives the unlocked level of the state after the
    confirm, which is the difficulty plus one. *)
Theorem stored_level_reads_back (s : State) (nowId nowStamp : nat) (str : string) :
  storedMaxLevel s = Some str ->
  mountMaxLevel (Some str)
  = Some (Z.of_nat (maxUnlockedLevel (checkSolution nowId nowStamp s)))
  /\ maxUnlockedLevel (checkSolution nowId nowStamp s) = gameSize s + 1.
Proof.
  unfold storedMaxLevel. intros Hstored.
  destruct (JsArray.some _ (currentSlots s)) eqn:Hsome; [done|].
  case_decide as Hwin; [|done]. case_decide as Hfront; [|done].
  injection Hstored as <-.
  assert (maxUnlockedLevel (checkSolution nowId nowStamp s) = gameSize s + 1) as Hnew.
  { rewrite checkSolution_maxUnlockedLevel, decide_True; [lia|].
    split; [by split|done]. }
  split; [|done]. unfold mountMaxLevel.
  rewrite decide_False by apply toString_not_empty.
  rewrite parseInt_toString, Hnew. f_equal. destruct Hfront as [_ Hlt]. lia.
Qed.

Lemma stored_level_reads_back_witness :
  storedMaxLevel solved = Some "6"
  /\ mountMaxLevel (Some "6") = Some 6%Z
  /\ maxUnlockedLevel (checkSolution 2000 2000 solved) = 6.
Proof.
  assert (storedMaxLevel solved = Some "6") as Hstored by reflexivity.
  pose proof (stored_level_reads_back solved 2000 2000 "6" Hstored) as [Hread Hnew].
  split_and!; [exact Hstored|exact Hread|exact Hnew].
Defined.

(** ** The life of a game *)

(** X5.  A game is never lost: from a state whose status is not [lost] no
    sequence of operations reaches one.  A single operation changes the
    status only in two ways: a win callback sets it to [won], an operation
    that starts a game sets it to [playing]. *)
Theorem status_never_lost
    (jsSort : forall A : Type, (nat -> A -> A -> Z) -> list A -> list A)
    (s : State) (ops : list Op) :
  gameStatus s <> lost ->
  gameStatus (run jsSort s ops) <> lost
  /\ (forall op,
        gameStatus (step jsSort s op) = gameStatus s
        \/ (isWinTimeout op = true /\ gameStatus (step jsSort s op) = won)
        \/ (startsGame op = true /\ gameStatus (step jsSort s op) = playing)).
Proof.
  intros Hs. split.
  - revert s Hs. unfold run.
    induction ops as [|op ops IH]; intros s Hs; simpl; [done|].
    apply IH.
    destruct (step_gameStatus jsSort s op) as [->|[(_ & _ & ->)|(_ & ->)]]; done.
  - intros op.
    destruct (step_gameStatus jsSort s op) as [?|[(? & _ & ?)|(? & ?)]]; eauto.
Qed.

Lemma status_never_lost_witness :
  gameStatus solved <> lost
  /\ gameStatus
       (run InsertionSort.sort solved [CheckSolution 2000 2000; WinTimeout 2500 2500])
     <> lost.
Proof.
  assert (gameStatus solved <> lost) as Hs by discriminate.
  pose proof (status_never_lost InsertionSort.sort solved
                [CheckSolution 2000 2000; WinTimeout 2500 2500] Hs) as [Hrun _].
  split; [exact Hs|exact Hrun].
Defined.

(** X6.  Within a game the history only grows at its front: over operations
    none of which starts a game, the log before is a suffix of the log after,
    and it is longer by at most one entry per confirm. *)
Theorem history_only_grows
    (jsSort : forall A : Type, (nat -> A -> A -> Z) -> list A -> list A)
    (s : State) (ops : list Op) :
  Forall (fun op => startsGame op = false) ops ->
  history s `suffix_of` history (run jsSort s ops)
  /\ length (history (run jsSort s ops))
     <= length (history s) + length (List.filter isConfirm ops).
Proof.
  unfold run. revert s.
  induction ops as [|op ops IH]; intros s Hops; simpl.
  - split; [done|lia].
  - apply Forall_cons in Hops as [Hop Hops].
    destruct (IH (step jsSort s op) Hops) as [Hsuf Hlen].
    destruct (step_history jsSort s op Hop) as [Heq|(Hc & entry & Heq)].
    + rewrite Heq in Hsuf, Hlen. split; [done|].
      destruct (isConfirm op); simpl; lia.
    + rewrite Heq in Hsuf, Hlen. rewrite Hc. simpl in *. split; [|lia].
      etrans; [|exact Hsuf]. by apply suffix_cons_r.
Qed.

Lemma history_only_grows_witness :
  Forall (fun op => startsGame op = false)
    [CheckSolution 2000 2000; TimerTick 2100; CheckSolution 2200 2200]
  /\ history secondAttempt
     `suffix_of` history (run InsertionSort.sort secondAttempt
                            [CheckSolution 2000 2000; TimerTick 2100;
                             CheckSolution 2200 2200]).
Proof.
  assert (Forall (fun op => startsGame op = false)
            [CheckSolution 2000 2000; TimerTick 2100; CheckSolution 2200 2200])
    as Hops by (repeat constructor).
  pose proof (history_only_grows InsertionSort.sort secondAttempt _ Hops) as [Hsuf _].
  split; [exact Hops|exact Hsuf].
Defined.

(** X7.  While the game is not being played, the board cannot be changed by
    anything but the release of a touch and the start of a new game: over any
    other operations the slots stay as they are (and the status stays other
    than [playing]). *)
Theorem board_frozen_unless_playing
    (jsSort : forall A : Type, (nat -> A -> A -> Z) -> list A -> list A)
    (s : State) (ops : list Op) :
  gameStatus s <> playing ->
  Forall (fun op => startsGame op = false /\ isTouchEnd op = false) ops ->
  currentSlots (run jsSort s ops) = currentSlots s
  /\ gameStatus (run jsSort s ops) <> playing.
Proof.
  unfold run. revert s.
  induction ops as [|op ops IH]; intros s Hs Hops; simpl; [done|].
  apply Forall_cons in Hops as [[Hstart Htouch] Hops].
  assert (gameStatus (step jsSort s op) <> playing) as Hs'.
  { destruct (step_gameStatus jsSort s op) as [->|[(_ & _ & ->)|(Hst & _)]];
      [done|done|congruence]. }
  destruct (IH _ Hs' Hops) as [-> Hfinal]. split; [|done].
  by apply step_board_frozen.
Qed.

Lemma board_frozen_unless_playing_witness :
  gameStatus wonWithTouchHeld <> playing
  /\ Forall (fun op => startsGame op = false /\ isTouchEnd op = false)
       [DropOnSlot (mkDataTransfer slot lime (Some 0)) 1; SlotClick 0;
        InventoryClick cola; CheckSolution 3000 3000]
  /\ currentSlots
       (run InsertionSort.sort wonWithTouchHeld
          [DropOnSlot (mkDataTransfer slot lime (Some 0)) 1; SlotClick 0;
           InventoryClick cola; CheckSolution 3000 3000])
     = currentSlots wonWithTouchHeld.
Proof.
  assert (gameStatus wonWithTouchHeld <> playing) as Hs by (by vm_compute).
  assert (Forall (fun op => startsGame op = false /\ isTouchEnd op = false)
            [DropOnSlot (mkDataTransfer slot lime (Some 0)) 1; SlotClick 0;
             InventoryClick cola; CheckSolution 3000 3000])
    as Hops by (repeat constructor).
  pose proof (board_frozen_unless_playing InsertionSort.sort wonWithTouchHeld _ Hs Hops)
    as [Hboard _].
  split_and!; [exact Hs|exact Hops|exact Hboard].
Defined.

(** ** The win callback *)

Lemma checkSolution_winning nowId nowStamp s :
  winningConfirm s ->
  let s1 := checkSolution nowId nowStamp s in
  currentSlots s1 = currentSlots s
  /\ targetSequence s1 = targetSequence s
  /\ gameSize s1 = gameSize s
  /\ elapsedTime s1 = elapsedTime s
  /\ records s1 = records s
  /\ gameStatus s1 = gameStatus s
  /\ length (history s1) = S (length (history s))
  /\ timers s1
     = timers s ++ [mkWinTimer (S (length (history s))) (elapsedTime s) (gameSize s)
                               (targetSequence s) (records s)].
Proof.
  intros [Hfull Hwin]. unfold checkSolution. rewrite Hfull, decide_True by done.
  case_decide; simpl; split_and!; reflexivity.
Qed.

Lemma winTimeout_cons nowId nowStamp s t pending :
  timers s = t :: pending ->
  winTimeout nowId nowStamp s
  = setRecords
      (timer_records t
       ++ [mkRecord (JsArray.toString nowId) nowStamp (timer_attempts t)
                    (timer_elapsedTime t) (timer_gameSize t)
                    (Some (timer_targetSequence t))])
      (setShowWinModal true
         (setGameStatus won (playSound snd_win (setTimers pending s)))).
Proof. intros Ht. unfold winTimeout. by rewrite Ht. Qed.

Lemma run_snoc jsSort s ops op :
  run jsSort s (ops ++ [op]) = step jsSort (run jsSort s ops) op.
Proof. unfold run. by rewrite foldl_app. Qed.

Lemma run_keeps_timers jsSort ops :
  forall s,
    Forall (fun op => isConfirm op = false /\ isWinTimeout op = false) ops ->
    timers (run jsSort s ops) = timers s.
Proof.
  unfold run. induction ops as [|op ops IH]; intros s Hops; simpl; [done|].
  apply Forall_cons in Hops as [[Hc Hw] Hops].
  rewrite IH by done. by apply step_timers.
Qed.

(** X8.  The record of a win describes the game as it was at the confirm.
    Whatever happens between the confirm and its callback, short of another
    confirm (clock ticks, moves, dialogs, even the start of a new game), the
    callback sets the status to [won], opens the win dialog, and sets the
    records to those of the confirm followed by one record with the attempts,
    elapsed time, difficulty and target of the confirmed game. *)
Theorem win_record_describes_confirmed_game
    (jsSort : forall A : Type, (nat -> A -> A -> Z) -> list A -> list A)
    (s : State) (nowId nowStamp t1 t2 : nat) (ops : list Op) :
  winningConfirm s ->
  timers s = [] ->
  Forall (fun op => isConfirm op = false /\ isWinTimeout op = false) ops ->
  let s' := run jsSort (checkSolution nowId nowStamp s) (ops ++ [WinTimeout t1 t2]) in
  records s'
  = records s
    ++ [mkRecord (JsArray.toString t1) t2 (S (length (history s))) (elapsedTime s)
                 (gameSize s) (Some (targetSequence s))]
  /\ gameStatus s' = won
  /\ showWinModal s' = true.
Proof.
  intros Hwin Htimers Hops s'. unfold s'. rewrite run_snoc. simpl.
  pose proof (run_keeps_timers jsSort ops (checkSolution nowId nowStamp s) Hops) as Hkeep.
  destruct (checkSolution_winning nowId nowStamp s Hwin) as (_&_&_&_&_&_&_&Ht).
  rewrite Ht, Htimers in Hkeep. simpl in Hkeep.
  unfold winTimeout. rewrite Hkeep. simpl. done.
Qed.

Lemma win_record_describes_confirmed_game_witness :
  winningConfirm solved
  /\ timers solved = []
  /\ gameStatus
       (run InsertionSort.sort (checkSolution 2000 2000 solved)
          ([TimerTick 2100; Restart 2200 (fun _ => 1%Z)] ++ [WinTimeout 2500 2500]))
     = won
  /\ currentSlots
       (run InsertionSort.sort (checkSolution 2000 2000 solved)
          ([TimerTick 2100; Restart 2200 (fun _ => 1%Z)] ++ [WinTimeout 2500 2500]))
     = replicate 5 Null.
Proof.
  assert (winningConfirm solved) as Hwin by (split; reflexivity).
  assert (Forall (fun op => isConfirm op = false /\ isWinTimeout op = false)
            [TimerTick 2100; Restart 2200 (fun _ => 1%Z)]) as Hops
    by (repeat constructor).
  pose proof (win_record_describes_confirmed_game InsertionSort.sort solved
                2000 2000 2500 2500 _ Hwin eq_refl Hops) as (_ & Hstatus & _).
  split_and!; [exact Hwin|reflexivity|exact Hstatus|reflexivity].
Defined.

(** X9.  Two confirms of a solved board before the first win callback runs
    leave one new record, not two: each callback writes the records its
    confirm saw, so the second overwrites the first.  The history has both
    attempts and the kept record counts both; the level is unlocked once. *)
Theorem double_confirm_keeps_one_record
    (jsSort : forall A : Type, (nat -> A -> A -> Z) -> list A -> list A)
    (s : State) (a b c d t1 t2 t3 t4 : nat) :
  winningConfirm s ->
  timers s = [] ->
  let s' := run jsSort s [CheckSolution a b; CheckSolution c d;
                          WinTimeout t1 t2; WinTimeout t3 t4] in
  records s'
  = records s
    ++ [mkRecord (JsArray.toString t3) t4 (length (history s) + 2) (elapsedTime s)
                 (gameSize s) (Some (targetSequence s))]
  /\ length (history s') = length (history s) + 2
  /\ maxUnlockedLevel s' <= maxUnlockedLevel s + 1.
Proof.
  intros Hwin Htimers s'. unfold s', run. simpl.
  destruct (checkSolution_winning a b s Hwin) as (Hb1&Ht1&Hg1&He1&Hr1&_&Hh1&Htm1).
  set (s1 := checkSolution a b s) in *.
  assert (winningConfirm s1) as Hwin1.
  { destruct Hwin as [Hfull Hcount]. split; by rewrite Hb1, ?Ht1, ?Hg1. }
  destruct (checkSolution_winning c d s1 Hwin1) as (_&Ht2&Hg2&He2&Hr2&_&Hh2&Htm2).
  set (s2 := checkSolution c d s1) in *.
  rewrite Htm1, Htimers in Htm2. simpl in Htm2.
  assert (maxUnlockedLevel s2 <= maxUnlockedLevel s + 1) as Hmax.
  { pose proof (checkSolution_maxUnlockedLevel a b s) as Hm1. fold s1 in Hm1.
    pose proof (checkSolution_maxUnlockedLevel c d s1) as Hm2. fold s2 in Hm2.
    destruct (decide (winningConfirm s
                      /\ gameSize s = maxUnlockedLevel s /\ gameSize s < length BRANDS))
      as [(_ & Heq & _)|_];
      destruct (decide (winningConfirm s1
                        /\ gameSize s1 = maxUnlockedLevel s1
                        /\ gameSize s1 < length BRANDS))
        as [(_ & Heq1 & _)|_]; lia. }
  rewrite (winTimeout_cons t1 t2 s2 _ _ Htm2).
  erewrite (winTimeout_cons t3 t4) by reflexivity.
  simpl. split_and!.
  - rewrite Hh1, He1, Hg1, Ht1, Hr1. do 3 f_equal. lia.
  - rewrite Hh2, Hh1. lia.
  - exact Hmax.
Qed.

Lemma double_confirm_keeps_one_record_witness :
  winningConfirm solved
  /\ timers solved = []
  /\ length (records
               (run InsertionSort.sort solved
                  [CheckSolution 2000 2000; CheckSolution 2100 2100;
                   WinTimeout 2500 2500; WinTimeout 2600 2600]))
     = 1
  /\ length (history
               (run InsertionSort.sort solved
                  [CheckSolution 2000 2000; CheckSolution 2100 2100;
                   WinTimeout 2500 2500; WinTimeout 2600 2600]))
     = 2.
Proof.
  assert (winningConfirm solved) as Hwin by (split; reflexivity).
  pose proof (double_confirm_keeps_one_record InsertionSort.sort solved
                2000 2000 2100 2100 2500 2500 2600 2600 Hwin eq_refl)
    as (Hrec & Hhist & _).
  split_and!; [exact Hwin|reflexivity| |exact Hhist].
  rewrite Hrec. reflexivity.
Defined.

(** ** Starting a game from the level menu *)

Lemma levelMenu_spec level :
  level ∈ levelMenu <-> DEFAULT_GAME_SIZE <= level <= length BRANDS.
Proof.
  unfold levelMenu, DEFAULT_GAME_SIZE. rewrite BRANDS_length, list_elem_of_fmap.
  split.
  - intros (i & -> & Hi). apply elem_of_seq in Hi. lia.
  - intros Hl. exists (level - 5). split; [lia|]. apply elem_of_seq. lia.
Qed.

Lemma filter_all_true {A} (f : A -> bool) (l : list A) :
  (forall x, f x = true) -> List.filter f l = l.
Proof.
  intros Hf. induction l as [|x l IH]; simpl; [done|]. by rewrite Hf, IH.
Qed.

Lemma includes_replicate_Null n b : JsArray.includes (replicate n Null) b = false.
Proof.
  apply not_true_is_false. rewrite includes_spec.
  by intros [? _]%elem_of_replicate.
Qed.

(** X10.  Choosing a level from the level menu.  An unlocked level starts a
    game of exactly that size: that many empty slots, a hidden target that
    is a rearrangement of the active brands, all active brands in the
    inventory, an empty history, status [playing], no confirm button; the
    unlocked level and the records are kept.  A locked level changes nothing
    but for the click sound. *)
Theorem selecting_a_level
    (jsSort : forall A : Type, (nat -> A -> A -> Z) -> list A -> list A)
    (now : nat) (random : nat -> Z) (level : nat) (s : State) :
  SortContract jsSort ->
  level ∈ levelMenu ->
  let s' := handleSelectLevel jsSort now random level s in
  (level <= maxUnlockedLevel s ->
   gameSize s' = level
   /\ currentSlots s' = replicate level Null
   /\ length (targetSequence s') = level
   /\ targetSequence s' ≡ₚ ids (activeBrands s')
   /\ availableInventory s' = activeBrands s'
   /\ length (availableInventory s') = level
   /\ history s' = []
   /\ gameStatus s' = playing
   /\ confirmButtonShown s' = false
   /\ maxUnlockedLevel s' = maxUnlockedLevel s
   /\ records s' = records s)
  /\ (maxUnlockedLevel s < level -> s' = playSound snd_click s).
Proof.
  intros Hsort [Hmin Hmax]%levelMenu_spec s'. unfold DEFAULT_GAME_SIZE in Hmin.
  pose proof BRANDS_length as Hcat.
  split.
  - intros Hunlocked. unfold s', handleSelectLevel. rewrite decide_True by done.
    assert (Nat.min level (length BRANDS) = level) as Hclamp
      by exact (Nat.min_l _ _ Hmax).
    set (g := initGame jsSort now random level (setGameSize level s)).
    assert (gameSize g = level) as Hsize by reflexivity.
    assert (currentSlots g = replicate level Null) as Hboard.
    { unfold g, initGame. by rewrite Hclamp. }
    assert (targetSequence g ≡ₚ ids (activeBrands g)) as Hperm.
    { unfold g at 1. rewrite initGame_targetSequence, Hclamp.
      unfold activeBrands, ids. rewrite Hsize.
      apply fmap_Permutation, (sort_permutation _ Hsort). }
    assert (length (activeBrands g) = level) as Hlen.
    { unfold activeBrands. rewrite Hsize, length_take. lia. }
    assert (availableInventory g = activeBrands g) as Hinv.
    { unfold availableInventory. rewrite Hboard. apply filter_all_true.
      intros brand. by rewrite includes_replicate_Null. }
    split_and!; try done.
    + rewrite Hperm. unfold ids. by rewrite length_fmap.
    + by rewrite Hinv.
    + unfold confirmButtonShown. rewrite Hinv, Hlen.
      rewrite bool_decide_eq_false_2 by lia. done.
  - intros Hlocked. unfold s', handleSelectLevel. rewrite decide_False by lia. done.
Qed.

Lemma selecting_a_level_witness :
  SortContract InsertionSort.sort
  /\ 6 ∈ levelMenu
  /\ gameSize
       (handleSelectLevel InsertionSort.sort 5000 (fun _ => (-1)%Z) 6
          (setMaxUnlockedLevel 6 solved)) = 6
  /\ handleSelectLevel InsertionSort.sort 5000 (fun _ => (-1)%Z) 6 solved
     = playSound snd_click solved.
Proof.
  assert (6 ∈ levelMenu) as Hmenu.
  { apply levelMenu_spec. unfold DEFAULT_GAME_SIZE. rewrite BRANDS_length. lia. }
  pose proof (selecting_a_level InsertionSort.sort 5000 (fun _ => (-1)%Z) 6
                (setMaxUnlockedLevel 6 solved) insertion_sort_contract Hmenu)
    as [Hopen _].
  pose proof (selecting_a_level InsertionSort.sort 5000 (fun _ => (-1)%Z) 6
                solved insertion_sort_contract Hmenu) as [_ Hlocked].
  split_and!; [exact insertion_sort_contract|exact Hmenu| |].
  - apply Hopen. simpl. lia.
  - apply Hlocked. simpl. lia.
Defined.

(** ** The win dialog *)

(** X11.  After a win at a difficulty within the unlocked range (confirm, then
    its callback), the win dialog is shown and offers the "next level
    (already unlocked)" button when the difficulty is below the catalog size,
    the "highest difficulty" notice otherwise; the "unlock the next
    difficulty" button is not what it offers, the confirm having raised the
    unlocked level already.  Below the catalog size both next-level handlers
    start the same game, one size up and within the unlocked range. *)
Theorem win_dialog_offer_after_win
    (jsSort : forall A : Type, (nat -> A -> A -> Z) -> list A -> list A)
    (s : State) (nowId nowStamp t1 t2 now : nat) (random : nat -> Z) :
  winningConfirm s ->
  timers s = [] ->
  gameSize s <= maxUnlockedLevel s ->
  let s' := winTimeout t1 t2 (checkSolution nowId nowStamp s) in
  winDialogShown s' = true
  /\ winDialogOffer s'
     = (if decide (gameSize s < length BRANDS)
        then NextUnlockedButton else MaxDifficultyNotice)
  /\ (gameSize s < length BRANDS ->
      handleNextLevel jsSort now random s' = nextUnlockedLevel jsSort now random s'
      /\ gameSize (nextUnlockedLevel jsSort now random s') = gameSize s + 1
      /\ gameSize s + 1 <= maxUnlockedLevel s').
Proof.
  intros Hwin Htimers Hrange s'.
  destruct (checkSolution_winning nowId nowStamp s Hwin) as (_&_&Hg&_&_&_&_&Ht).
  pose proof (checkSolution_maxUnlockedLevel nowId nowStamp s) as Hm.
  rewrite Htimers in Ht. simpl in Ht.
  assert (gameSize s' = gameSize s) as Hg'.
  { unfold s'. by rewrite (winTimeout_cons _ _ _ _ _ Ht). }
  assert (maxUnlockedLevel s' = maxUnlockedLevel (checkSolution nowId nowStamp s))
    as Hm'.
  { unfold s'. by rewrite (winTimeout_cons _ _ _ _ _ Ht). }
  assert (gameSize s < length BRANDS -> gameSize s < maxUnlockedLevel s') as Hup.
  { intros Hlt. rewrite Hm', Hm. case_decide as Hc; [lia|].
    destruct (decide (gameSize s = maxUnlockedLevel s)) as [Heq|Hne]; [|lia].
    destruct Hc. by split_and!. }
  split_and!.
  - unfold s'. by rewrite (winTimeout_cons _ _ _ _ _ Ht).
  - unfold winDialogOffer. rewrite Hg'.
    destruct (decide (gameSize s < length BRANDS)) as [Hlt|Hge].
    + rewrite decide_True; [done|]. split; [done|]. by apply Hup.
    + rewrite decide_False by tauto. done.
  - intros Hlt. split_and!.
    + unfold handleNextLevel, nextUnlockedLevel. rewrite Hg'. by rewrite decide_True.
    + unfold nextUnlockedLevel. simpl. by rewrite Hg'.
    + specialize (Hup Hlt). lia.
Qed.

Lemma win_dialog_offer_after_win_witness :
  winningConfirm solved
  /\ timers solved = []
  /\ gameSize solved <= maxUnlockedLevel solved
  /\ winDialogOffer (winTimeout 2500 2500 (checkSolution 2000 2000 solved))
     = NextUnlockedButton.
Proof.
  assert (winningConfirm solved) as Hwin by (split; reflexivity).
  assert (gameSize solved <= maxUnlockedLevel solved) as Hrange by (simpl; lia).
  pose proof (win_dialog_offer_after_win InsertionSort.sort solved 2000 2000
                2500 2500 3000 (fun _ => 1%Z) Hwin eq_refl Hrange) as (_ & Hoffer & _).
  split_and!; [exact Hwin|reflexivity|exact Hrange|exact Hoffer].
Defined.

(** ** The marks of a history row *)

Lemma spread_length a : length (JsArray.spread a) = length a.
Proof. unfold JsArray.spread. by rewrite length_fmap. Qed.

(** X12.  For the entry a confirm adds, on a full board with one slot per
    brand of the game: the row shows the check icon exactly when the attempt
    was all correct, and shows its count in emerald exactly when the count is
    5.  So the two marks agree in a game of size 5 only: a win at another
    size has the check and no emerald count. *)
Theorem history_row_marks (s : State) (nowId nowStamp : nat) (entry : HistoryEntry) :
  (Null ∉ currentSlots s) ->
  length (currentSlots s) = gameSize s ->
  head (history (checkSolution nowId nowStamp s)) = Some entry ->
  (historyRowCheck entry = true
   <-> correctCount (currentSlots s) (targetSequence s) = gameSize s)
  /\ (historyRowEmerald entry = true
      <-> correctCount (currentSlots s) (targetSequence s) = 5)
  /\ (gameSize s = 5 -> historyRowCheck entry = historyRowEmerald entry)
  /\ (gameSize s <> 5 -> historyRowCheck entry = true -> historyRowEmerald entry = false).
Proof.
  intros Hfull Hlen Hentry.
  rewrite checkSolution_full in Hentry
    by (apply not_true_is_false; by rewrite some_null_spec).
  injection Hentry as <-.
  unfold historyRowCheck, historyRowEmerald. simpl.
  rewrite spread_length, Hlen, !bool_decide_eq_true.
  split_and!; [done|done| |].
  - intros ->. done.
  - intros Hne ->. by apply bool_decide_eq_false_2.
Qed.

(** A solved game of size 6. *)
Lemma history_row_marks_witness :
  let s := setGameSize 6
             (setTargetSequence [lime; cola; grape; water; orange; energy]
                (setCurrentSlots (Brand <$> [lime; cola; grape; water; orange; energy])
                   solved)) in
  (Null ∉ currentSlots s)
  /\ length (currentSlots s) = gameSize s
  /\ historyRowCheck
       (mkEntry "2000" (Brand <$> [lime; cola; grape; water; orange; energy]) 6 2000)
     = true
  /\ historyRowEmerald
       (mkEntry "2000" (Brand <$> [lime; cola; grape; water; orange; energy]) 6 2000)
     = false.
Proof.
  intros s.
  assert (Null ∉ currentSlots s) as Hfull.
  { intros Hin. apply some_null_spec in Hin. discriminate Hin. }
  pose proof (history_row_marks s 2000 2000 _ Hfull eq_refl eq_refl)
    as (Hcheck & _ & _ & Hdiffer).
  assert (historyRowCheck
            (mkEntry "2000" (Brand <$> [lime; cola; grape; water; orange; energy]) 6 2000)
          = true) as Hc by (apply Hcheck; reflexivity).
  split_and!; [exact Hfull|reflexivity|exact Hc|].
  apply Hdiffer; [simpl; lia|exact Hc].
Defined.

(** ** Cans *)

(** X13.  Every brand id has its can: for a brand id that is not hidden,
    [SodaCan] finds a catalog entry with that id, the only one, and draws it;
    it never falls back to the empty marking.  A disabled can has neither its
    click nor its drag handler. *)
Theorem sodaCan_draws_the_brand (props : SodaCanProps) (b : BrandId) :
  can_brandId props = Brand b ->
  can_isHidden props = false ->
  exists brand,
    SodaCan props
    = Can brand (can_size props) (negb (can_disabled props))
          (can_draggable props && negb (can_disabled props))
    /\ brand ∈ BRANDS
    /\ brand_id brand = b
    /\ (forall other, other ∈ BRANDS -> brand_id other = b -> other = brand).
Proof.
  intros Hb Hvisible. unfold SodaCan. rewrite Hb, Hvisible.
  assert (exists brand, findBrand (Brand b) = Some brand
                        /\ brand ∈ BRANDS /\ brand_id brand = b) as (brand & Hf & Hin & Hid).
  { destruct b; eexists; (split; [reflexivity|split; [|reflexivity]]);
      apply list_elem_of_In; simpl; tauto. }
  exists brand. rewrite Hf. split_and!; [done|done|done|].
  intros other Hother Hsame.
  pose proof BRANDS_ids_NoDup as Hnd. unfold ids in Hnd.
  apply list_elem_of_lookup_1 in Hin as [i Hi].
  apply list_elem_of_lookup_1 in Hother as [j Hj].
  assert (i = j) as ->.
  { eapply NoDup_lookup; [exact Hnd| |];
      rewrite list_lookup_fmap; [by rewrite Hi|rewrite Hj; simpl; congruence]. }
  congruence.
Qed.

Lemma sodaCan_draws_the_brand_witness :
  exists brand,
    SodaCan (mkCanProps (Brand grape) false sm false true)
    = Can brand sm true true
    /\ brand_id brand = grape.
Proof.
  destruct (sodaCan_draws_the_brand (mkCanProps (Brand grape) false sm false true)
              grape eq_refl eq_refl) as (brand & Hcan & _ & Hid & _).
  exists brand. split; [exact Hcan|exact Hid].
Defined.

(** X14.  Until the game is won the row of the target shows nothing of it:
    every can of the row is the mystery box, so two games that differ only in
    their targets (of one length) have the same row. *)
Theorem target_row_hidden_until_won (s : State) (other : list BrandId) :
  gameStatus s <> won ->
  length other = length (targetSequence s) ->
  targetRow s = replicate (length (targetSequence s)) (MysteryBox (getResponsiveSize s))
  /\ targetRow (setTargetSequence other s) = targetRow s.
Proof.
  intros Hs Hlen.
  assert (forall t : list BrandId,
            targetRow (setTargetSequence t s)
            = replicate (length t) (MysteryBox (getResponsiveSize s))) as Hrow.
  { intros t. unfold targetRow, SodaCan. simpl.
    rewrite bool_decide_eq_true_2 by done. simpl.
    induction t as [|b t IH]; simpl; [done|]. by rewrite <- IH. }
  split.
  - rewrite <- (Hrow (targetSequence s)). by destruct s.
  - rewrite Hrow, Hlen, <- (Hrow (targetSequence s)). by destruct s.
Qed.

Lemma target_row_hidden_until_won_witness :
  gameStatus newGame <> won
  /\ length [cola; lime; orange; grape; water] = length (targetSequence newGame)
  /\ targetRow (setTargetSequence [cola; lime; orange; grape; water] newGame)
     = targetRow newGame.
Proof.
  assert (gameStatus newGame <> won) as Hs by discriminate.
  pose proof (target_row_hidden_until_won newGame [cola; lime; orange; grape; water]
                Hs eq_refl) as [_ Hsame].
  split_and!; [exact Hs|reflexivity|exact Hsame].
Defined.

(** ** Moves and the length of the board *)

Lemma set_length a i v : length (JsArray.set a i v) = Nat.max (length a) (S i).
Proof.
  unfold JsArray.set. case_decide.
  - rewrite length_insert. lia.
  - rewrite !length_app, length_replicate. simpl. lia.
Qed.

(** X15.  [executeMove] never shortens the board, whatever the descriptor; and
    when the slot indices of the descriptor are positions of the board, the
    board keeps its length. *)
Theorem executeMove_board_length
    (source : Zone) (x : BrandId) (sourceIndex : option nat)
    (targetType : Zone) (targetIndex : option nat) (s : State) :
  let board' :=
    currentSlots (executeMove source x sourceIndex targetType targetIndex s) in
  length (currentSlots s) <= length board'
  /\ ((forall i, sourceIndex = Some i -> i < length (currentSlots s)) ->
      (forall j, targetIndex = Some j -> j < length (currentSlots s)) ->
      length board' = length (currentSlots s)).
Proof.
  unfold executeMove.
  split.
  - repeat case_match; simpl; rewrite ?set_length, ?spread_length; lia.
  - intros Hi Hj.
    repeat case_match; simpl; rewrite ?set_length, ?spread_length;
      try specialize (Hi _ eq_refl); try specialize (Hj _ eq_refl); lia.
Qed.

Lemma executeMove_board_length_witness :
  (forall i, Some 0 = Some i -> i < length (currentSlots partlyFilled))
  /\ (forall j, Some 4 = Some j -> j < length (currentSlots partlyFilled))
  /\ length (currentSlots (executeMove slot cola (Some 0) slot (Some 4) partlyFilled))
     = length (currentSlots partlyFilled).
Proof.
  assert (forall i, Some 0 = Some i -> i < length (currentSlots partlyFilled)) as Hi
    by (intros i [= <-]; simpl; lia).
  assert (forall j, Some 4 = Some j -> j < length (currentSlots partlyFilled)) as Hj
    by (intros j [= <-]; simpl; lia).
  pose proof (executeMove_board_length slot cola (Some 0) slot (Some 4) partlyFilled)
    as [_ Hlen].
  split_and!; [exact Hi|exact Hj|exact (Hlen Hi Hj)].
Defined.

(** ** Moves that undo each other *)

Lemma insert_insert_back (board : list Slot) i j x c :
  board !! i = Some x -> board !! j = Some c ->
  <[j := c]> (<[i := x]> (<[i := c]> (<[j := x]> board))) = board.
Proof.
  intros Hi Hj.
  pose proof (lookup_lt_Some _ _ _ Hi). pose proof (lookup_lt_Some _ _ _ Hj).
  apply list_eq. intros k.
  destruct (decide (k = j)) as [->|Hkj].
  - rewrite list_lookup_insert_eq by (rewrite !length_insert; lia). done.
  - rewrite list_lookup_insert_ne by done.
    destruct (decide (k = i)) as [->|Hki].
    + rewrite list_lookup_insert_eq by (rewrite !length_insert; lia). done.
    + by rewrite !list_lookup_insert_ne.
Qed.

(** X16.  Moves undo each other.  On a board of its declared type, with the
    item [x] in slot [i]: moving it to slot [j] and then back from [j] to [i]
    restores the board; moving it to the inventory and then from the
    inventory to slot [i] restores the board; and a brand placed from the
    inventory on an empty slot [j] and taken back leaves the board as it
    was. *)
Theorem moves_undo_each_other (s : State) (x y : BrandId) (i j : nat) :
  wellTyped (currentSlots s) ->
  currentSlots s !! i = Some (Brand x) ->
  j < length (currentSlots s) ->
  currentSlots
    (executeMove slot x (Some j) slot (Some i)
       (executeMove slot x (Some i) slot (Some j) s))
  = currentSlots s
  /\ currentSlots
       (executeMove inventory x None slot (Some i)
          (executeMove slot x (Some i) inventory None s))
     = currentSlots s
  /\ (currentSlots s !! j = Some Null ->
      currentSlots
        (executeMove slot y (Some j) inventory None
           (executeMove inventory y None slot (Some j) s))
      = currentSlots s).
Proof.
  intros Hw Hi Hj.
  pose proof (lookup_lt_Some _ _ _ Hi) as Hlt.
  destruct (lookup_lt_is_Some_2 (currentSlots s) j Hj) as [c Hc].
  split_and!.
  - set (s1 := executeMove slot x (Some i) slot (Some j) s).
    assert (currentSlots s1 = <[i := c]> (<[j := Brand x]> (currentSlots s))) as H1
      by by apply executeMove_slot_slot.
    assert (wellTyped (currentSlots s1)) as Hw1.
    { rewrite H1. apply wellTyped_insert; [|by eapply wellTyped_lookup].
      apply wellTyped_insert; eauto. }
    rewrite (executeMove_slot_slot s1 x j i c Hw1).
    + rewrite H1. by apply insert_insert_back.
    + rewrite H1, !length_insert. lia.
    + rewrite H1. apply list_lookup_insert_eq. by rewrite length_insert.
  - set (s1 := executeMove slot x (Some i) inventory None s).
    assert (currentSlots s1 = <[i := Null]> (currentSlots s)) as H1
      by by apply executeMove_slot_inventory.
    rewrite executeMove_inventory_slot.
    + rewrite H1, list_insert_insert_eq. by apply list_insert_id.
    + rewrite H1. apply wellTyped_insert; auto.
    + by rewrite H1, length_insert.
  - intros Hnull.
    set (s1 := executeMove inventory y None slot (Some j) s).
    assert (currentSlots s1 = <[j := Brand y]> (currentSlots s)) as H1
      by by apply executeMove_inventory_slot.
    rewrite executeMove_slot_inventory.
    + rewrite H1, list_insert_insert_eq. by apply list_insert_id.
    + rewrite H1. apply wellTyped_insert; eauto.
    + by rewrite H1, length_insert.
Qed.

Lemma moves_undo_each_other_witness :
  currentSlots partlyFilled !! 0 = Some (Brand cola)
  /\ 2 < length (currentSlots partlyFilled)
  /\ currentSlots
       (executeMove slot cola (Some 2) slot (Some 0)
          (executeMove slot cola (Some 0) slot (Some 2) partlyFilled))
     = currentSlots partlyFilled.
Proof.
  assert (wellTyped (currentSlots partlyFilled)) as Hw.
  { unfold wellTyped. simpl.
    repeat (apply List.Forall_cons; [first [by left | right; by eexists]|]).
    apply List.Forall_nil. }
  assert (2 < length (currentSlots partlyFilled)) as Hj by (simpl; lia).
  pose proof (moves_undo_each_other partlyFilled cola grape 0 2 Hw eq_refl Hj)
    as (Hback & _).
  split_and!; [reflexivity|exact Hj|exact Hback].
Defined.

(** ** The click shortcuts *)

Lemma indexOf_null_from_first a :
  forall index k,
    JsArray.indexOf_null_from a index = Some k ->
    forall k', k' < k - index -> a !! k' <> Some Null.
Proof.
  induction a as [|c a IH]; intros index k Hk k' Hlt; simpl in Hk; [done|].
  destruct c; try (injection Hk as <-; lia);
    (destruct k' as [|k']; [done|]; simpl;
     apply (IH _ _ Hk); apply indexOf_null_from_Some in Hk; lia).
Qed.

Lemma indexOf_null_from_None a :
  forall index, JsArray.indexOf_null_from a index = None -> Null ∉ a.
Proof.
  induction a as [|c a IH]; intros index Hk; simpl in Hk.
  - apply not_elem_of_nil.
  - destruct c; try done;
      (apply not_elem_of_cons; split; [done|by eapply IH]).
Qed.

(** X17.  A click on an inventory can while the game is played puts the brand
    in the first empty slot, the one with no empty slot before it, and a
    click on that slot then takes it out again, restoring the board; with no
    empty slot the click only sounds. *)
Theorem inventory_click_fills_first_empty (b : BrandId) (s : State) :
  gameStatus s = playing ->
  wellTyped (currentSlots s) ->
  ((Null ∉ currentSlots s) -> handleInventoryClick b s = playSound snd_click s)
  /\ (Null ∈ currentSlots s ->
      exists k,
        currentSlots s !! k = Some Null
        /\ (forall k', k' < k -> currentSlots s !! k' <> Some Null)
        /\ currentSlots (handleInventoryClick b s) = <[k := Brand b]> (currentSlots s)
        /\ currentSlots (handleSlotClick k (handleInventoryClick b s))
           = currentSlots s).
Proof.
  intros Hs Hw. unfold handleInventoryClick.
  rewrite decide_False by (by rewrite Hs; auto).
  destruct (JsArray.indexOf_null (currentSlots s)) as [k|] eqn:Hk.
  - split; [intros Hfull|intros _].
    + apply indexOf_null_from_Some in Hk as [_ Hk]. rewrite Nat.sub_0_r in Hk.
      destruct Hfull. by eapply list_elem_of_lookup_2.
    + pose proof (indexOf_null_from_first _ _ _ Hk) as Hfirst.
      apply indexOf_null_from_Some in Hk as [_ Hk]. rewrite Nat.sub_0_r in Hk, Hfirst.
      pose proof (lookup_lt_Some _ _ _ Hk) as Hlt.
      assert (JsArray.set (JsArray.spread (currentSlots s)) k (Brand b)
              = <[k := Brand b]> (currentSlots s)) as Hset.
      { rewrite spread_wellTyped by done. by apply set_in_range. }
      exists k. split_and!; [done|done|by simpl|].
      unfold handleSlotClick. simpl. rewrite Hset.
      rewrite decide_False by (by rewrite Hs; auto).
      assert (wellTyped (<[k := Brand b]> (currentSlots s))) as Hw'
        by (apply wellTyped_insert; eauto).
      rewrite (get_wellTyped _ k (Brand b)) by
        (done || (apply list_lookup_insert_eq; done)).
      rewrite decide_True by done. simpl.
      rewrite spread_wellTyped by done.
      rewrite set_in_range by by rewrite length_insert.
      rewrite list_insert_insert_eq. by apply list_insert_id.
  - split; [done|]. intros Hin. by apply indexOf_null_from_None in Hk.
Qed.

Lemma inventory_click_fills_first_empty_witness :
  gameStatus partlyFilled = playing
  /\ Null ∈ currentSlots partlyFilled
  /\ exists k,
       currentSlots partlyFilled !! k = Some Null
       /\ currentSlots (handleInventoryClick grape partlyFilled)
          = <[k := Brand grape]> (currentSlots partlyFilled).
Proof.
  assert (wellTyped (currentSlots partlyFilled)) as Hw.
  { unfold wellTyped. simpl.
    repeat (apply List.Forall_cons; [first [by left | right; by eexists]|]).
    apply List.Forall_nil. }
  assert (Null ∈ currentSlots partlyFilled) as Hnull.
  { apply list_elem_of_In. simpl. auto. }
  pose proof (inventory_click_fills_first_empty grape partlyFilled eq_refl Hw)
    as [_ Hplace].
  destruct (Hplace Hnull) as (k & Hk & _ & Hboard & _).
  split_and!; [reflexivity|exact Hnull|].
  exists k. split; [exact Hk|exact Hboard].
Defined.

(** X18.  A click on a slot while the game is played: on an occupied slot it
    empties that slot and nothing else, and the brand is then in the derived
    inventory (no brand being in two slots, the brand being active); on an
    empty slot it changes nothing, not even a sound. *)
Theorem slot_click_returns_the_can (i : nat) (s : State) :
  gameStatus s = playing ->
  wellTyped (currentSlots s) ->
  i < length (currentSlots s) ->
  (currentSlots s !! i = Some Null -> handleSlotClick i s = s)
  /\ (forall brand,
        currentSlots s !! i = Some (Brand (brand_id brand)) ->
        currentSlots (handleSlotClick i s) = <[i := Null]> (currentSlots s)
        /\ (distinctSlots (currentSlots s) ->
            brand ∈ activeBrands s ->
            brand ∈ availableInventory (handleSlotClick i s))).
Proof.
  intros Hs Hw Hi. unfold handleSlotClick.
  rewrite decide_False by (by rewrite Hs; auto).
  split.
  - intros Hnull. rewrite (get_wellTyped _ _ Null) by done.
    by rewrite decide_False by auto.
  - intros brand Hb. rewrite (get_wellTyped _ _ (Brand (brand_id brand))) by done.
    rewrite decide_True by done. simpl.
    rewrite spread_wellTyped by done. rewrite set_in_range by done.
    split; [done|]. intros Hd Hact.
    apply availableInventory_spec. simpl. split; [done|].
    intros (k & Hk)%list_elem_of_lookup_1.
    apply list_lookup_insert_Some in Hk as [(_ & ? & _)|(Hne & Hk)]; [done|].
    apply Hne. by eapply Hd.
Qed.

Lemma slot_click_returns_the_can_witness :
  gameStatus partlyFilled = playing
  /\ 2 < length (currentSlots partlyFilled)
  /\ currentSlots (handleSlotClick 2 partlyFilled)
     = [Brand cola; Null; Null; Null; Null].
Proof.
  assert (wellTyped (currentSlots partlyFilled)) as Hw.
  { unfold wellTyped. simpl.
    repeat (apply List.Forall_cons; [first [by left | right; by eexists]|]).
    apply List.Forall_nil. }
  assert (2 < length (currentSlots partlyFilled)) as Hi by (simpl; lia).
  pose proof (slot_click_returns_the_can 2 partlyFilled eq_refl Hw Hi) as [_ Hclear].
  destruct (Hclear (mkBrand lime "激爽青柠" "#16a34a" "#22c55e" "#ffffff" "青柠") eq_refl)
    as [Hboard _].
  split_and!; [reflexivity|exact Hi|exact Hboard].
Defined.

(** ** Inventory and board add up *)











(** ** The clock *)

Lemma executeMove_elapsedTime source x si tt ti s :
  elapsedTime (executeMove source x si tt ti s) = elapsedTime s.
Proof. unfold executeMove. by repeat case_match. Qed.

Lemma step_elapsed_frozen jsSort s op :
  gameStatus s <> playing -> startsGame op = false ->
  elapsedTime (step jsSort s op) = elapsedTime s.
Proof.
  intros Hs Hstart.
  destruct op; try discriminate; simpl; unfold_handlers; unfold timerRuns;
    rewrite ?(bool_decide_eq_false_2 (gameStatus s = playing)) by done; simpl;
    repeat (case_decide || case_match);
    rewrite ?executeMove_elapsedTime; simpl; done.
Qed.

(** X20.  The clock stops with the game: once the status is not [playing], the
    elapsed time stays what it is over any operations, ticks included, until
    a new game is started. *)
Theorem clock_stops_with_the_game
    (jsSort : forall A : Type, (nat -> A -> A -> Z) -> list A -> list A)
    (s : State) (ops : list Op) :
  gameStatus s <> playing ->
  Forall (fun op => startsGame op = false) ops ->
  elapsedTime (run jsSort s ops) = elapsedTime s.
Proof.
  unfold run. revert s.
  induction ops as [|op ops IH]; intros s Hs Hops; simpl; [done|].
  apply Forall_cons in Hops as [Hstart Hops].
  rewrite IH; [by apply step_elapsed_frozen| |done].
  destruct (step_gameStatus jsSort s op) as [->|[(_ & _ & ->)|(Hst & _)]];
    [done|done|congruence].
Qed.

Lemma clock_stops_with_the_game_witness :
  gameStatus wonWithTouchHeld <> playing
  /\ Forall (fun op => startsGame op = false)
       [TimerTick 3000; TimerEffect 3500; TouchEnd (Element (Some 1) false);
        TimerTick 4000]
  /\ elapsedTime
       (run InsertionSort.sort wonWithTouchHeld
          [TimerTick 3000; TimerEffect 3500; TouchEnd (Element (Some 1) false);
           TimerTick 4000])
     = elapsedTime wonWithTouchHeld.
Proof.
  assert (gameStatus wonWithTouchHeld <> playing) as Hs by (by vm_compute).
  assert (Forall (fun op => startsGame op = false)
            [TimerTick 3000; TimerEffect 3500; TouchEnd (Element (Some 1) false);
             TimerTick 4000]) as Hops by (repeat constructor).
  pose proof (clock_stops_with_the_game InsertionSort.sort wonWithTouchHeld _ Hs Hops)
    as Hclock.
  split_and!; [exact Hs|exact Hops|exact Hclock].
Defined.
